(* ===================================================================== *)
(*  Huffman coding, case-shift transform and LZ77 matcher of main.go     *)
(*  A shallow embedding in Rocq and the properties proved about it.      *)
(* ===================================================================== *)
(* Conventions of the embedding.
   - Go's [int] is a 64-bit two's-complement integer: a [Z] together with
     the wrap-around [wrap64] wherever the source adds or subtracts.
   - A [rune] is an [int32], kept as a [Z].
   - A Go [string] is a sequence of bytes.  The functions of main.go read
     a string with [for _, c := range s] only, and write one through a
     [strings.Builder] only, so each of them is written on the runes that
     the range yields ([range_string], which decodes UTF-8 and yields
     U+FFFD for a byte that starts no well-formed sequence) and returns
     the runes written to the builder, whose bytes are [Builder_String].
     The runes of a range are Unicode scalar values ([is_string]);
     [strings.Builder.WriteRune] appends a rune, replacing anything that
     is not a scalar value by U+FFFD.  The two round trips, which compare
     the returned string with any input string as Go's [==] does, are
     stated on the bytes; a property stated on runes speaks of the symbols
     of a string, which determine the string when it is valid UTF-8
     ([valid_utf8]).
   - [map[K]V] is a [gmap K V].  A [range] over a map visits every entry
     once in an order that Go leaves unspecified: the loops whose result
     depends on that order take the visiting order as an argument, and the
     properties are proved for every order ([range_order]).
   - A call either returns a value, or panics (index out of range).  The
     loops that are not bounded by a list (container/heap, [BuildTree],
     the matcher and the compressor) are run with fuel; running out of
     fuel is a third outcome, and it is shown never to happen. *)

From Stdlib Require Import ZArith Lia.
From Stdlib.Strings Require Import Byte.
From stdpp Require Import base option list gmap.

Local Open Scope Z_scope.

(* --------------------------------------------------------------------- *)
(** * Go integers, runes, strings                                         *)
(* --------------------------------------------------------------------- *)

Definition MaxInt : Z := 2 ^ 63 - 1.
Definition MinInt : Z := - 2 ^ 63.

(** Two's-complement wrap-around of a 64-bit [int]. *)
Definition wrap64 (z : Z) : Z := (z + 2 ^ 63) mod 2 ^ 64 - 2 ^ 63.

Definition int_add (a b : Z) : Z := wrap64 (a + b).
Definition int_sub (a b : Z) : Z := wrap64 (a - b).

Abbreviation rune := Z.

Definition MaxRune : Z := 0x10FFFF.
Definition RuneError : Z := 0xFFFD.
Definition MaxASCII : Z := 0x7F.
Definition MaxLatin1 : Z := 0xFF.

(** The runes utf8 can encode: the Unicode scalar values. *)
Definition valid_rune (r : Z) : bool :=
  (0 <=? r) && (r <=? MaxRune) && negb ((0xD800 <=? r) && (r <=? 0xDFFF)).

(** utf8.AppendRune writes U+FFFD for anything else. *)
Definition sanitize (r : Z) : Z := if valid_rune r then r else RuneError.

(** [b.WriteRune(r)] on a [strings.Builder] whose content is [b]. *)
Definition WriteRune (b : list Z) (r : Z) : list Z := b ++ [sanitize r].

(** The rune sequences that ranging over a Go string can yield: a byte
    that is not part of well-formed UTF-8 is yielded as U+FFFD, so such a
    sequence tells the symbols of the string, not its bytes. *)
Definition is_string (s : list Z) : Prop := Forall (λ r, valid_rune r = true) s.

(** [len(x)] as an [int]. *)
Definition len {A} (l : list A) : Z := Z.of_nat (length l).

(* --------------------------------------------------------------------- *)
(** * Go strings as bytes: UTF-8                                          *)
(* --------------------------------------------------------------------- *)

(** The value of a byte, and the conversion [byte(x)], which keeps the low
    eight bits. *)
Definition byte_val (b : byte) : Z := Z.of_N (Byte.to_N b).
Definition to_byte (x : Z) : byte := default x00 (Byte.of_N (Z.to_N (x mod 256))).

(** [uint32(r)] of an [int32]. *)
Definition uint32 (r : Z) : Z := r mod 2 ^ 32.

(** The constants and the encoder of package unicode/utf8, and the decoder
    that the runtime runs for a [range] over a string (runtime/utf8.go),
    which has the same constants. *)
Module utf8.

Definition RuneSelf : Z := 0x80.

Definition tx : Z := 0x80.
Definition t2 : Z := 0xC0.
Definition t3 : Z := 0xE0.
Definition t4 : Z := 0xF0.
Definition t5 : Z := 0xF8.

Definition maskx : Z := 0x3F.
Definition mask2 : Z := 0x1F.
Definition mask3 : Z := 0x0F.
Definition mask4 : Z := 0x07.

Definition rune1Max : Z := 2 ^ 7 - 1.
Definition rune2Max : Z := 2 ^ 11 - 1.
Definition rune3Max : Z := 2 ^ 16 - 1.

Definition locb : Z := 0x80.
Definition hicb : Z := 0xBF.

Definition surrogateMin : Z := 0xD800.
Definition surrogateMax : Z := 0xDFFF.

Definition runeErrorByte0 : byte := to_byte (Z.lor t3 (RuneError ≫ 12)).
Definition runeErrorByte1 : byte := to_byte (Z.lor tx (Z.land (RuneError ≫ 6) maskx)).
Definition runeErrorByte2 : byte := to_byte (Z.lor tx (Z.land RuneError maskx)).

(** [a|b] and [b&m] on bytes. *)
Definition bor (a : Z) (b : byte) : byte := to_byte (Z.lor a (byte_val b)).
Definition band (b : byte) (m : Z) : byte := to_byte (Z.land (byte_val b) m).

(** [utf8.AppendRune(p, r)], with [appendRuneNonASCII] inlined. *)
Definition AppendRune (p : list byte) (r : rune) : list byte :=
  let i := uint32 r in
  if i <=? rune1Max then
    p ++ [to_byte r]
  else if i <=? rune2Max then
    p ++ [bor t2 (to_byte (r ≫ 6));
          bor tx (band (to_byte r) maskx)]
  else if (i <? surrogateMin) || ((surrogateMax <? i) && (i <=? rune3Max)) then
    p ++ [bor t3 (to_byte (r ≫ 12));
          bor tx (band (to_byte (r ≫ 6)) maskx);
          bor tx (band (to_byte r) maskx)]
  else if (rune3Max <? i) && (i <=? MaxRune) then
    p ++ [bor t4 (to_byte (r ≫ 18));
          bor tx (band (to_byte (r ≫ 12)) maskx);
          bor tx (band (to_byte (r ≫ 6)) maskx);
          bor tx (band (to_byte r) maskx)]
  else
    p ++ [runeErrorByte0; runeErrorByte1; runeErrorByte2].

(** [locb <= b && b <= hicb]: [b] is a continuation byte. *)
Definition continues (b : byte) : bool :=
  (locb <=? byte_val b) && (byte_val b <=? hicb).

(** [decoderune(s, k)] on the bytes of [s] from position [k] on: the rune
    and the number of bytes it takes.  A byte that starts no well-formed
    sequence gives U+FFFD and one byte. *)
Definition decoderune (s : list byte) : rune * nat :=
  let invalid := (RuneError, 1%nat) in
  match s with
  | [] => invalid
  | b0 :: rest =>
      let s0 := byte_val b0 in
      if (t2 <=? s0) && (s0 <? t3) then
        match rest with
        | b1 :: _ =>
            if continues b1 then
              let r := Z.lor (Z.land s0 mask2 ≪ 6) (Z.land (byte_val b1) maskx) in
              if rune1Max <? r then (r, 2%nat) else invalid
            else invalid
        | _ => invalid
        end
      else if (t3 <=? s0) && (s0 <? t4) then
        match rest with
        | b1 :: b2 :: _ =>
            if continues b1 && continues b2 then
              let r := Z.lor (Z.lor (Z.land s0 mask3 ≪ 12)
                                    (Z.land (byte_val b1) maskx ≪ 6))
                             (Z.land (byte_val b2) maskx) in
              if (rune2Max <? r) && negb ((surrogateMin <=? r) && (r <=? surrogateMax))
              then (r, 3%nat) else invalid
            else invalid
        | _ => invalid
        end
      else if (t4 <=? s0) && (s0 <? t5) then
        match rest with
        | b1 :: b2 :: b3 :: _ =>
            if continues b1 && continues b2 && continues b3 then
              let r := Z.lor (Z.lor (Z.lor (Z.land s0 mask4 ≪ 18)
                                           (Z.land (byte_val b1) maskx ≪ 12))
                                    (Z.land (byte_val b2) maskx ≪ 6))
                             (Z.land (byte_val b3) maskx) in
              if (rune3Max <? r) && (r <=? MaxRune) then (r, 4%nat) else invalid
            else invalid
        | _ => invalid
        end
      else invalid
  end.

End utf8.

(** One round of [for _, c := range s], on the bytes of [s] that are left:
    a byte below [RuneSelf] is the rune, anything else goes through
    [decoderune]. *)
Definition range_step (s : list byte) : rune * nat :=
  match s with
  | [] => (RuneError, 1%nat)
  | b0 :: _ =>
      if byte_val b0 <? utf8.RuneSelf then (byte_val b0, 1%nat) else utf8.decoderune s
  end.

(** The runes that [for _, c := range s] yields.  [skip] counts the bytes
    of the sequence just decoded that the scan still has to pass. *)
Fixpoint range_from (skip : nat) (s : list byte) : list rune :=
  match s with
  | [] => []
  | _ :: rest =>
      match skip with
      | S skip => range_from skip rest
      | O => let '(r, size) := range_step s in r :: range_from (size - 1) rest
      end
  end.

Definition range_string (s : list byte) : list rune := range_from 0 s.

(** [b.String()] of a [strings.Builder] into which the runes [b] were
    written: [WriteRune] appends with [utf8.AppendRune]. *)
Definition Builder_String (b : list rune) : list byte := foldl utf8.AppendRune [] b.

(** [s] is the UTF-8 encoding of a sequence of Unicode scalar values. *)
Definition valid_utf8 (s : list byte) : Prop :=
  ∃ rs, is_string rs ∧ s = Builder_String rs.

(* --------------------------------------------------------------------- *)
(** * Outcomes of a call                                                  *)
(* --------------------------------------------------------------------- *)

Inductive outcome (A : Type) : Type :=
  | Returns (a : A)
  | Panics
  | OutOfFuel.
Arguments Returns {A} a.
Arguments Panics {A}.
Arguments OutOfFuel {A}.

#[global] Instance outcome_ret : MRet outcome := λ A a, Returns a.
#[global] Instance outcome_bind : MBind outcome := λ A B f m,
  match m with
  | Returns a => f a
  | Panics => Panics
  | OutOfFuel => OutOfFuel
  end.

(** [l[i]] with Go's bounds check. *)
Definition index {A} (l : list A) (i : Z) : outcome A :=
  if i <? 0 then Panics
  else match l !! Z.to_nat i with
       | Some a => Returns a
       | None => Panics
       end.

(** The order in which a [range] over the map [m] may visit its entries. *)
Definition range_order `{Countable K} {V} (m : gmap K V) (kvs : list (K * V)) : Prop :=
  kvs ≡ₚ map_to_list m.

(* --------------------------------------------------------------------- *)
(** * The part of package unicode that main.go calls                      *)
(* --------------------------------------------------------------------- *)

Definition upArrow : Z := 0x2191.   (* '↑' *)
Definition downArrow : Z := 0x2193. (* '↓' *)

(** unicode.IsUpper, IsLower, ToUpper and ToLower are driven by the tables
    of the Unicode character database, which are not part of this
    repository.  The functions are taken as a parameter, with the facts
    about the tables that the proofs rely on: lower-casing keeps scalar
    values scalar, no letter is both upper and lower case, and the two
    arrows used as markers are symbols without case. *)
Class Unicode := {
  IsUpper : Z → bool;
  IsLower : Z → bool;
  ToUpper : Z → Z;
  ToLower : Z → Z;
  ToLower_valid : ∀ r, valid_rune r = true → valid_rune (ToLower r) = true;
  upper_not_lower : ∀ r, IsUpper r = true → IsLower r = false;
  IsUpper_upArrow : IsUpper upArrow = false;
  IsUpper_downArrow : IsUpper downArrow = false;
  ToUpper_upArrow : ToUpper upArrow = upArrow;
  ToUpper_downArrow : ToUpper downArrow = downArrow;
}.

(** ** An excerpt of Go's tables, for running the functions

    The rows follow unicode/tables.go.  The excerpt covers U+0000..U+00FF,
    U+0100..U+0137 and U+2102..U+2107; a rune outside these rows is treated
    as having no case. *)
Module GoUnicode.

Record Range := { Lo : Z; Hi : Z; Stride : Z }.
Record CaseRange := { CLo : Z; CHi : Z; dUpper : Z; dLower : Z; dTitle : Z }.

Definition UpperCase : Z := 0.
Definition LowerCase : Z := 1.
Definition UpperLower : Z := MaxRune + 1.

(** Rows of [_Lu] and [_Ll]. *)
Definition Upper : list Range :=
  [ Build_Range 0x0041 0x005A 1; Build_Range 0x00C0 0x00D6 1;
    Build_Range 0x00D8 0x00DE 1; Build_Range 0x0100 0x0136 2;
    Build_Range 0x2102 0x2107 5 ].
Definition Lower : list Range :=
  [ Build_Range 0x0061 0x007A 1; Build_Range 0x00B5 0x00DF 42;
    Build_Range 0x00E0 0x00F6 1; Build_Range 0x00F8 0x00FF 1;
    Build_Range 0x0101 0x0137 2 ].

(** Rows of [_CaseRanges]. *)
Definition CaseRanges : list CaseRange :=
  [ Build_CaseRange 0x0041 0x005A 0 32 0;
    Build_CaseRange 0x0061 0x007A (-32) 0 (-32);
    Build_CaseRange 0x00B5 0x00B5 743 0 743;
    Build_CaseRange 0x00C0 0x00D6 0 32 0;
    Build_CaseRange 0x00D8 0x00DE 0 32 0;
    Build_CaseRange 0x00E0 0x00F6 (-32) 0 (-32);
    Build_CaseRange 0x00F8 0x00FE (-32) 0 (-32);
    Build_CaseRange 0x00FF 0x00FF 121 0 121;
    Build_CaseRange 0x0100 0x012F UpperLower UpperLower UpperLower;
    Build_CaseRange 0x0130 0x0130 0 (-199) 0;
    Build_CaseRange 0x0131 0x0131 (-232) 0 (-232);
    Build_CaseRange 0x0132 0x0137 UpperLower UpperLower UpperLower ].

(** [Is(rangeTab, r)]: some row holds [r], on its stride. *)
Definition Is (tab : list Range) (r : Z) : bool :=
  existsb (λ g, (Lo g <=? r) && (r <=? Hi g) && ((r - Lo g) mod Stride g =? 0)) tab.

(** [to(_case, r, caseRange)]: the row that holds [r] gives the delta; in
    an Upper-Lower row the runes at even offsets are upper case and the
    ones at odd offsets lower case. *)
Fixpoint to (_case : Z) (r : Z) (caseRange : list CaseRange) : Z :=
  match caseRange with
  | [] => r
  | cr :: rest =>
      if (CLo cr <=? r) && (r <=? CHi cr) then
        let delta := if _case =? UpperCase then dUpper cr else dLower cr in
        if MaxRune <? delta then
          CLo cr + Z.lor (Z.ldiff (r - CLo cr) 1) (Z.land _case 1)
        else r + delta
      else to _case r rest
  end.

(** On U+0000..U+00FF Go reads the category from its [properties] array,
    which holds there what the rows of [_Lu] and [_Ll] hold. *)
Definition IsUpper (r : Z) : bool := Is Upper r.
Definition IsLower (r : Z) : bool := Is Lower r.

Definition ToUpper (r : Z) : Z :=
  if r <=? MaxASCII then
    (if (0x61 <=? r) && (r <=? 0x7A) then r - 32 else r)
  else to UpperCase r CaseRanges.

Definition ToLower (r : Z) : Z :=
  if r <=? MaxASCII then
    (if (0x41 <=? r) && (r <=? 0x5A) then r + 32 else r)
  else to LowerCase r CaseRanges.

End GoUnicode.

(* --------------------------------------------------------------------- *)
(** * Huffman trees and the priority queue                                *)
(* --------------------------------------------------------------------- *)

Record HuffmanLeaf := {
  Frequency : Z;
  Value : rune;
  Char : list rune;
}.

(** The two implementations of the interface [HuffmanTree]: a
    [HuffmanLeaf], and [Node f v l r] for
    [HuffmanNode{Frequency: f, Value: v, Left: l, Right: r}]. *)
Inductive HuffmanTree : Type :=
  | Leaf (hl : HuffmanLeaf)
  | Node (frequency : Z) (value : rune) (Left Right : HuffmanTree).

Definition Freq (t : HuffmanTree) : Z :=
  match t with
  | Leaf hl => Frequency hl
  | Node f _ _ _ => f
  end.

Abbreviation PriorityQueue := (list HuffmanTree).

(** [pq.Less(i, j)], [pq.Swap(i, j)], [pq.Push(x)], [pq.Pop()]. *)
Definition Less (pq : PriorityQueue) (i j : Z) : outcome bool :=
  a ← index pq i; b ← index pq j; mret (Freq a <? Freq b).

Definition Swap (pq : PriorityQueue) (i j : Z) : outcome PriorityQueue :=
  b ← index pq j; a ← index pq i;
  mret (<[Z.to_nat j := a]> (<[Z.to_nat i := b]> pq)).

Definition Push (pq : PriorityQueue) (x : HuffmanTree) : PriorityQueue := pq ++ [x].

Definition Pop (pq : PriorityQueue) : outcome (HuffmanTree * PriorityQueue) :=
  let n := len pq in
  item ← index pq (n - 1);
  mret (item, take (Z.to_nat (n - 1)) pq).

(** ** container/heap

    [down], [up], [Init], [Push] and [Pop] of Go's container/heap, on the
    queue above.  Indices stay below [len(h)], so [2*i + 1] is far from the
    64-bit limit and is computed without wrap-around.  [down] also reports
    whether the element moved; [Init] and [Pop] drop that result. *)
Fixpoint down (fuel : nat) (h : PriorityQueue) (i n : Z) : outcome PriorityQueue :=
  match fuel with
  | O => OutOfFuel
  | S fuel =>
      let j1 := 2 * i + 1 in
      if (n <=? j1) || (j1 <? 0) then mret h
      else
        let j2 := j1 + 1 in
        right_smaller ← (if j2 <? n then Less h j2 j1 else mret false);
        let j := if right_smaller : bool then j2 else j1 in
        child_smaller ← Less h j i;
        if negb child_smaller then mret h
        else h' ← Swap h i j; down fuel h' j n
  end.

Fixpoint up (fuel : nat) (h : PriorityQueue) (j : Z) : outcome PriorityQueue :=
  match fuel with
  | O => OutOfFuel
  | S fuel =>
      let i := (j - 1) ÷ 2 in
      if i =? j then mret h
      else
        smaller ← Less h j i;
        if negb smaller then mret h
        else h' ← Swap h i j; up fuel h' i
  end.

(** [for i := n/2 - 1; i >= 0; i-- { down(h, i, n) }], [k] rounds to go. *)
Fixpoint heapify (k : nat) (h : PriorityQueue) (n : Z) : outcome PriorityQueue :=
  match k with
  | O => mret h
  | S k' => h' ← down (S (length h)) h (Z.of_nat k') n; heapify k' h' n
  end.

Definition heap_Init (h : PriorityQueue) : outcome PriorityQueue :=
  let n := len h in heapify (Z.to_nat (n ÷ 2)) h n.

Definition heap_Push (h : PriorityQueue) (x : HuffmanTree) : outcome PriorityQueue :=
  let h := Push h x in
  up (S (length h)) h (len h - 1).

Definition heap_Pop (h : PriorityQueue) : outcome (HuffmanTree * PriorityQueue) :=
  let n := len h - 1 in
  h ← Swap h 0 n;
  h ← down (S (length h)) h 0 n;
  Pop h.

(** ** BuildTree *)

(** [for trees.Len() > 1 { ... }] *)
Fixpoint BuildTree_loop (fuel : nat) (trees : PriorityQueue) : outcome PriorityQueue :=
  match fuel with
  | O => OutOfFuel
  | S fuel =>
      if 1 <? len trees then
        '(a, trees) ← heap_Pop trees;
        '(b, trees) ← heap_Pop trees;
        trees ← heap_Push trees (Node (int_add (Freq a) (Freq b)) 0 a b);
        BuildTree_loop fuel trees
      else mret trees
  end.

Definition BuildTree (leaves : list HuffmanLeaf) : outcome HuffmanTree :=
  let trees := Leaf <$> leaves in
  trees ← heap_Init trees;
  trees ← BuildTree_loop (S (length trees)) trees;
  '(root, _) ← heap_Pop trees;
  mret root.

(** ** BuildFrequencyTable *)

(** [for _, char := range s { frequencies[char]++ }] *)
Definition count_rune (frequencies : gmap Z Z) (char : rune) : gmap Z Z :=
  <[char := int_add (default 0 (frequencies !! char)) 1]> frequencies.

Definition frequencies (s : list rune) : gmap Z Z := foldl count_rune ∅ s.

(** [for char, freq := range frequencies { leaves = append(leaves, ...) }]
    when the range visits the entries in the order [kvs]. *)
Definition BuildFrequencyTable_visiting (kvs : list (Z * Z)) : list HuffmanLeaf :=
  (λ kv, {| Frequency := kv.2; Value := kv.1; Char := [sanitize kv.1] |}) <$> kvs.

(** The results [BuildFrequencyTable(s)] can return. *)
Definition BuildFrequencyTable (s : list rune) (leaves : list HuffmanLeaf) : Prop :=
  ∃ kvs, range_order (frequencies s) kvs ∧ leaves = BuildFrequencyTable_visiting kvs.

(* --------------------------------------------------------------------- *)
(** * Code table, encoding and decoding                                   *)
(* --------------------------------------------------------------------- *)

Definition bit0 : rune := 0x30. (* '0' *)
Definition bit1 : rune := 0x31. (* '1' *)

(** [for k, v := range src { dst[k] = v }], visiting in the order [kvs]. *)
Definition copy_visiting {V} (kvs : list (Z * V)) (dst : gmap Z V) : gmap Z V :=
  foldl (λ e kv, <[kv.1 := kv.2]> e) dst kvs.

(** The keys of a map are distinct, so the copy does not depend on the
    order ([copy_visiting_any_order]); it is run in the order of
    [map_to_list]. *)
Definition copy_all {V} (src dst : gmap Z V) : gmap Z V :=
  copy_visiting (map_to_list src) dst.

Fixpoint buildEncoding (node : HuffmanTree) (prefix : list rune) : gmap Z (list rune) :=
  match node with
  | Leaf leaf => <[Value leaf := prefix]> ∅
  | Node _ _ l r =>
      let encoding := ∅ in
      let leftEncoding := buildEncoding l (prefix ++ [bit0]) in
      let encoding := copy_all leftEncoding encoding in
      let rightEncoding := buildEncoding r (prefix ++ [bit1]) in
      copy_all rightEncoding encoding
  end.

(** [encoding[c]] is the empty string for a missing key. *)
Definition applyHuffmanEncoding (s : list rune) (encoding : gmap Z (list rune)) : list rune :=
  foldl (λ encoded c, encoded ++ default [] (encoding !! c)) [] s.

(** [for k, v := range m { reversed[v] = k }], visiting in the order [kvs]. *)
Definition reverseMap_visiting (kvs : list (Z * list rune)) : gmap (list rune) Z :=
  foldl (λ reversed kv, <[kv.2 := kv.1]> reversed) ∅ kvs.

(** One round of the decoding loop on the builders [decoded] and [code]. *)
Definition decode_step (reversed : gmap (list rune) Z)
    (st : list rune * list rune) (c : rune) : list rune * list rune :=
  let '(decoded, code) := st in
  let code := WriteRune code c in
  match reversed !! code with
  | Some val => (WriteRune decoded val, [])
  | None => (decoded, code)
  end.

(** The builders [(decoded, code)] when the loop ends. *)
Definition decode_loop (reversed : gmap (list rune) Z) (s : list rune) :
    list rune * list rune :=
  foldl (decode_step reversed) ([], []) s.

Definition applyHuffmanDecoding_visiting (kvs : list (Z * list rune)) (s : list rune) :
    list rune :=
  (decode_loop (reverseMap_visiting kvs) s).1.

(** The results [applyHuffmanDecoding(s, encoding)] can return. *)
Definition applyHuffmanDecoding (s : list rune) (encoding : gmap Z (list rune))
    (decoded : list rune) : Prop :=
  ∃ kvs, range_order encoding kvs ∧ decoded = applyHuffmanDecoding_visiting kvs s.

(* --------------------------------------------------------------------- *)
(** * The case-shift transform                                            *)
(* --------------------------------------------------------------------- *)

Section Shift.
Context `{Unicode}.

Definition applyShift_step (st : list rune * bool) (c : rune) : list rune * bool :=
  let '(shifted, isShifted) := st in
  if IsUpper c && negb isShifted then
    (WriteRune (WriteRune shifted upArrow) (ToLower c), true)
  else if IsLower c && isShifted then
    (WriteRune (WriteRune shifted downArrow) c, false)
  else if isShifted then
    (WriteRune shifted (ToLower c), isShifted)
  else
    (WriteRune shifted c, isShifted).

Definition applyShiftString (s : list rune) : list rune :=
  (foldl applyShift_step ([], false) s).1.

Definition removeShift_step (st : list rune * bool) (c : rune) : list rune * bool :=
  let '(unshifted, isShifted) := st in
  if c =? upArrow then (unshifted, true)
  else if c =? downArrow then (unshifted, false)
  else if isShifted then (WriteRune unshifted (ToUpper c), isShifted)
  else (WriteRune unshifted c, isShifted).

Definition removeShiftString (s : list rune) : list rune :=
  (foldl removeShift_step ([], false) s).1.

(** The two functions from the bytes of the argument to the bytes of the
    result: the loop ranges over [s], and the result is [String()] of the
    builder. *)
Definition applyShiftString_bytes (s : list byte) : list byte :=
  Builder_String (applyShiftString (range_string s)).

Definition removeShiftString_bytes (s : list byte) : list byte :=
  Builder_String (removeShiftString (range_string s)).

(** Upper-casing undoes lower-casing on the symbols of [s] that the
    forward scan can lower-case (the ones that are not lower case). *)
Definition case_stable (s : list rune) : Prop :=
  ∀ c, c ∈ s → IsLower c = false → ToUpper (ToLower c) = c.

(** Lower-casing a symbol of [s] that is not lower case never gives an
    upper-case symbol. *)
Definition lowered_not_upper (s : list rune) : Prop :=
  ∀ c, c ∈ s → IsLower c = false → IsUpper (ToLower c) = false.
End Shift.

(* --------------------------------------------------------------------- *)
(** * LZ77                                                                *)
(* --------------------------------------------------------------------- *)

Record LZ77Token := {
  Distance : Z;
  Length : Z;
  Next : byte;
}.

(** In the loops below [i + l], [current + l] and [i + length + 1] are
    bounded by [len(data) + 1], so they are computed without wrap-around;
    [current - windowSize] is not bounded and wraps ([int_sub]). *)

(** The inner loop of [longestMatch]:
    [for l < current-i && i+l < len(data) && current+l < len(data)
         && data[i+l] == data[current+l] { l++ }]. *)
Fixpoint match_loop (fuel : nat) (data : list byte) (i current l : Z) : outcome Z :=
  match fuel with
  | O => OutOfFuel
  | S fuel =>
      if (l <? current - i) && (i + l <? len data) && (current + l <? len data) then
        a ← index data (i + l);
        b ← index data (current + l);
        if Byte.eqb a b then match_loop fuel data i current (l + 1)
        else mret l
      else mret l
  end.

(** The match length found at the candidate position [i]. *)
Definition match_at (data : list byte) (i current : Z) : outcome Z :=
  match_loop (S (length data)) data i current 0.

(** One round of the outer loop, on the named results. *)
Definition longestMatch_step (data : list byte) (current : Z)
    (acc : outcome (Z * Z)) (i : Z) : outcome (Z * Z) :=
  '(length, distance) ← acc;
  l ← match_at data i current;
  if length <? l then mret (l, current - i) else mret (length, distance).

(** [for i := start; i < current; i++]: the values [i] takes. *)
Definition candidates (start current : Z) : list Z := seqZ start (current - start).

Definition max (a b : Z) : Z := if a >? b then a else b.

(** [start := max(0, current-windowSize)] *)
Definition window_start (current windowSize : Z) : Z :=
  max 0 (int_sub current windowSize).

Definition longestMatch (data : list byte) (current windowSize : Z) : outcome (Z * Z) :=
  let start := window_start current windowSize in
  foldl (longestMatch_step data current) (mret (0, 0)) (candidates start current).

Fixpoint LZ77Compress_loop (fuel : nat) (input : list byte) (windowSize : Z)
    (i : Z) (result : list LZ77Token) : outcome (list LZ77Token) :=
  match fuel with
  | O => OutOfFuel
  | S fuel =>
      if i <? len input then
        '(length, distance) ← longestMatch input i windowSize;
        nextChar ← (if i + length <? len input then index input (i + length)
                    else mret x00);
        let result := result ++ [{| Distance := distance; Length := length; Next := nextChar |}] in
        let i := i + (length + 1) in
        if len input <=? i then mret result
        else LZ77Compress_loop fuel input windowSize i result
      else mret result
  end.

Definition LZ77Compress (input : list byte) (windowSize : Z) : outcome (list LZ77Token) :=
  LZ77Compress_loop (S (length input)) input windowSize 0 [].

(** ** Replaying a token sequence

    The repository has no decompressor.  The replay below follows the
    specification's words: copy [Length] bytes starting [Distance] bytes
    back in the output, then append the token's literal [Next]. *)
Definition replay_token (out : list byte) (t : LZ77Token) : list byte :=
  let from := Z.to_nat (len out - Distance t) in
  out ++ take (Z.to_nat (Length t)) (drop from out) ++ [Next t].

Definition replay (tokens : list LZ77Token) : list byte := foldl replay_token [] tokens.

(* --------------------------------------------------------------------- *)
(** * Notions used to state the properties                                *)
(* --------------------------------------------------------------------- *)

(** The leaves of a tree, left to right, and of a queue of trees. *)
Fixpoint tree_leaves (t : HuffmanTree) : list HuffmanLeaf :=
  match t with
  | Leaf hl => [hl]
  | Node _ _ l r => tree_leaves l ++ tree_leaves r
  end.

Definition queue_leaves (pq : PriorityQueue) : list HuffmanLeaf :=
  concat (tree_leaves <$> pq).

(** Every inner node is as [BuildTree] makes it: its frequency is the
    (64-bit) sum of the frequencies of its children, its value is 0. *)
Fixpoint built (t : HuffmanTree) : Prop :=
  match t with
  | Leaf _ => True
  | Node f v l r => f = int_add (Freq l) (Freq r) ∧ v = 0 ∧ built l ∧ built r
  end.

(** [code_of t path x]: following [path] from the root of [t] ('0' to the
    left, '1' to the right) ends in a leaf that holds the symbol [x]. *)
Inductive code_of : HuffmanTree → list rune → rune → Prop :=
  | code_of_leaf hl : code_of (Leaf hl) [] (Value hl)
  | code_of_left f v l r path x :
      code_of l path x → code_of (Node f v l r) (bit0 :: path) x
  | code_of_right f v l r path x :
      code_of r path x → code_of (Node f v l r) (bit1 :: path) x.

(** No code of the table is a prefix of the code of another symbol. *)
Definition prefix_free (encoding : gmap Z (list rune)) : Prop :=
  ∀ x y cx cy, encoding !! x = Some cx → encoding !! y = Some cy →
    x ≠ y → ¬ cx `prefix_of` cy.

(** The [l] bytes from [i] on are the [l] bytes from [current] on. *)
Definition matches (data : list byte) (i current l : Z) : Prop :=
  ∀ k, 0 ≤ k < l →
    ∃ b, data !! Z.to_nat (i + k) = Some b ∧ data !! Z.to_nat (current + k) = Some b.

(** What the inner loop guarantees about the length it returns. *)
Definition match_ok (data : list byte) (i current l : Z) : Prop :=
  0 ≤ l ∧ matches data i current l ∧
  (l = 0 ∨ (l ≤ current - i ∧ current + l ≤ len data)).

(** What [LZ77Compress] guarantees about a token: the match does not reach
    past its own start, and it starts inside the window of some cursor. *)
Definition token_ok (input : list byte) (windowSize : Z) (t : LZ77Token) : Prop :=
  0 ≤ Length t ≤ Distance t ∧
  (Distance t = 0 ∨
   ∃ current, 0 ≤ current < len input ∧
     Distance t ≤ current - window_start current windowSize).

(** Sum of a list of integers, and of the counts held by a map. *)
Definition sumZ (l : list Z) : Z := foldr Z.add 0 l.
Definition map_sum (m : gmap Z Z) : Z := sumZ (map_to_list m).*2.

(* --------------------------------------------------------------------- *)
(** * Inputs of the examples                                              *)
(* --------------------------------------------------------------------- *)

Definition AbRaCaDaBrA : list rune := [65; 98; 82; 97; 67; 97; 68; 97; 66; 114; 65].
Definition abracadabra : list rune := [97; 98; 114; 97; 99; 97; 100; 97; 98; 114; 97].
Definition aaaa : list rune := [97; 97; 97; 97].

(** The bytes of "abracadabra", of "Été" (U+00C9, U+0074, U+00E9), of
    "İ" (U+0130), and of "a\xffa" and "\xff", which are not UTF-8. *)
Definition abracadabra_bytes : list byte :=
  [x61; x62; x72; x61; x63; x61; x64; x61; x62; x72; x61].
Definition Ete_bytes : list byte := [xc3; x89; x74; xc3; xa9].
Definition I_dot_bytes : list byte := [xc4; xb0].
Definition a_ff_a : list byte := [x61; xff; x61].
Definition ff : list byte := [xff].

(** The frequency table of "abracadabra", and the leaf of "aaaa". *)
Definition abracadabra_leaves : list HuffmanLeaf :=
  [ {| Frequency := 1; Value := 99; Char := [99] |};
    {| Frequency := 5; Value := 97; Char := [97] |};
    {| Frequency := 2; Value := 114; Char := [114] |};
    {| Frequency := 2; Value := 98; Char := [98] |};
    {| Frequency := 1; Value := 100; Char := [100] |} ].
Definition aaaa_leaf : HuffmanLeaf := {| Frequency := 4; Value := 97; Char := [97] |}.

(** The table a ↦ "0", b ↦ "10". *)
Definition table_a0_b10 : gmap Z (list rune) := <[97 := [bit0]]> (<[98 := [bit1; bit0]]> ∅).

(* --------------------------------------------------------------------- *)
(** * More of main.go                                                     *)
(* --------------------------------------------------------------------- *)

(** [getMaxDepth]: the depth of the deepest leaf. *)
Fixpoint getMaxDepth (node : HuffmanTree) : Z :=
  match node with
  | Leaf _ => 0
  | Node _ _ l r =>
      let leftDepth := getMaxDepth l in
      let rightDepth := getMaxDepth r in
      if leftDepth >? rightDepth then leftDepth + 1 else rightDepth + 1
  end.

(** The number of times [x] occurs in [s]. *)
Definition occurrences (x : rune) (s : list rune) : Z :=
  len (filter (λ y, y = x) s).

(** The literal token for the byte [b]. *)
Definition literal (b : byte) : LZ77Token :=
  {| Distance := 0; Length := 0; Next := b |}.

(** The bytes a token stands for: its match and the byte after it. *)
Definition token_span (t : LZ77Token) : Z := Length t + 1.

(** ** Heap order and Huffman's merge step *)

(** The frequency of the tree at index [j] of the queue (0 past its end),
    and the index of the parent of [j] in container/heap's layout. *)
Definition key (h : PriorityQueue) (j : Z) : Z :=
  from_option Freq 0 (h !! Z.to_nat j).
Definition parent (j : Z) : Z := (j - 1) ÷ 2.

(** From index [lo] on, no tree among the first [n] is lighter than its
    parent; [heap_ordered] is heap order on the first [n] trees. *)
Definition heap_from (h : PriorityQueue) (n lo : Z) : Prop :=
  ∀ j, 0 < j < n → lo ≤ parent j → key h (parent j) ≤ key h j.
Definition heap_ordered (h : PriorityQueue) (n : Z) : Prop := heap_from h n 0.

(** Heap order from [lo] on, but for the tree at [i], which may be heavier
    than its children (as [down] finds it). *)
Definition heap_except_down (h : PriorityQueue) (n lo i : Z) : Prop :=
  (∀ j, 0 < j < n → lo ≤ parent j → parent j ≠ i → key h (parent j) ≤ key h j) ∧
  (∀ j, 0 < j < n → parent j = i → 0 < i → lo ≤ parent i →
     key h (parent i) ≤ key h j).

(** Heap order, but for the tree at [j], which may be lighter than its
    parent (as [up] finds it). *)
Definition heap_except_up (h : PriorityQueue) (n j : Z) : Prop :=
  (∀ j', 0 < j' < n → j' ≠ j → key h (parent j') ≤ key h j') ∧
  (∀ j', 0 < j' < n → parent j' = j → 0 < j → key h (parent j) ≤ key h j').

(** One step of Huffman's algorithm on a collection of trees: two trees of
    least frequency, [a] no heavier than [b], are replaced by the node
    that [BuildTree] makes of them. *)
Inductive merge_step : PriorityQueue → PriorityQueue → Prop :=
  | merge_lightest a b rest q q' :
      q ≡ₚ a :: b :: rest →
      Forall (λ t, Freq a ≤ Freq t) (b :: rest) →
      Forall (λ t, Freq b ≤ Freq t) rest →
      q' ≡ₚ Node (int_add (Freq a) (Freq b)) 0 a b :: rest →
      merge_step q q'.

(** At every inner node the left subtree is no heavier than the right. *)
Fixpoint light_left (t : HuffmanTree) : Prop :=
  match t with
  | Leaf _ => True
  | Node _ _ l r => Freq l ≤ Freq r ∧ light_left l ∧ light_left r
  end.

(** A heap-ordered queue of three leaves, with frequencies 1, 5 and 2. *)
Definition heap_1_5_2 : PriorityQueue :=
  [ Leaf {| Frequency := 1; Value := 99; Char := [99] |};
    Leaf {| Frequency := 5; Value := 97; Char := [97] |};
    Leaf {| Frequency := 2; Value := 98; Char := [98] |} ].

(* ===================================================================== *)
(*  Properties                                                           *)
(* ===================================================================== *)

(* --------------------------------------------------------------------- *)
(** * Facts about runes and outcomes                                      *)
(* --------------------------------------------------------------------- *)

Lemma sanitize_valid r : valid_rune r = true → sanitize r = r.
Proof. unfold sanitize. by intros ->. Qed.

Lemma WriteRune_valid b r : valid_rune r = true → WriteRune b r = b ++ [r].
Proof. intros Hr. unfold WriteRune. by rewrite sanitize_valid. Qed.

Lemma valid_upArrow : valid_rune upArrow = true.
Proof. reflexivity. Qed.

Lemma valid_downArrow : valid_rune downArrow = true.
Proof. reflexivity. Qed.

Lemma foldl_snoc {A B} (f : A → B → A) (a : A) (l : list B) (x : B) :
  foldl f a (l ++ [x]) = f (foldl f a l) x.
Proof. by rewrite foldl_app. Qed.

Lemma is_string_app s1 s2 : is_string (s1 ++ s2) ↔ is_string s1 ∧ is_string s2.
Proof. apply Forall_app. Qed.

Lemma sanitize_is_valid r : valid_rune (sanitize r) = true.
Proof. unfold sanitize. by destruct (valid_rune r) eqn:Hr. Qed.

Lemma WriteRune_is_string b r : is_string b → is_string (WriteRune b r).
Proof.
  intros Hb. apply is_string_app. split; [done|].
  apply Forall_singleton, sanitize_is_valid.
Qed.

(* --------------------------------------------------------------------- *)
(** * Bytes and UTF-8                                                     *)
(* --------------------------------------------------------------------- *)

(** Linear arithmetic with division and remainder by constants. *)
Ltac zlia := Z.to_euclidean_division_equations; lia.

Lemma byte_val_range b : 0 ≤ byte_val b < 256.
Proof. unfold byte_val. pose proof (Byte.to_N_bounded b). lia. Qed.

Lemma byte_val_to_byte x : byte_val (to_byte x) = x mod 256.
Proof.
  pose proof (Z.mod_pos_bound x 256 eq_refl) as Hx.
  unfold byte_val, to_byte.
  destruct (Byte.of_N (Z.to_N (x mod 256))) as [b|] eqn:Hb.
  - apply Byte.to_of_N in Hb. cbn [from_option id]. rewrite Hb. rewrite Z2N.id; [reflexivity|lia].
  - apply Byte.of_N_None_iff in Hb. zlia.
Qed.

Lemma to_byte_byte_val b : to_byte (byte_val b) = b.
Proof.
  unfold byte_val, to_byte. pose proof (Byte.to_N_bounded b).
  rewrite Z.mod_small, N2Z.id, Byte.of_to_N by lia. done.
Qed.

(** Putting bits together without overlap is adding. *)
Lemma lor_add (k b m n : Z) :
  m = 2 ^ n → 0 ≤ n → 0 ≤ b < m → Z.lor (k * m) b = k * m + b.
Proof.
  intros -> Hn Hb. symmetry. apply Z.add_nocarry_lor. apply Z.bits_inj'. intros i Hi.
  rewrite Z.land_spec, Z.bits_0.
  destruct (Z.lt_ge_cases i n) as [Hlt|Hge].
  - by rewrite Z.mul_pow2_bits_low.
  - rewrite <- (Z.mod_small b (2 ^ n)) by lia.
    rewrite Z.mod_pow2_bits_high by lia. apply andb_false_r.
Qed.

Lemma land_maskx x : Z.land x utf8.maskx = x mod 64.
Proof. change utf8.maskx with (Z.ones 6). by rewrite Z.land_ones. Qed.

Lemma land_mask2 x : Z.land x utf8.mask2 = x mod 32.
Proof. change utf8.mask2 with (Z.ones 5). by rewrite Z.land_ones. Qed.

Lemma land_mask3 x : Z.land x utf8.mask3 = x mod 16.
Proof. change utf8.mask3 with (Z.ones 4). by rewrite Z.land_ones. Qed.

Lemma land_mask4 x : Z.land x utf8.mask4 = x mod 8.
Proof. change utf8.mask4 with (Z.ones 3). by rewrite Z.land_ones. Qed.

Lemma shiftl_6 x : x ≪ 6 = x * 64.
Proof. by rewrite Z.shiftl_mul_pow2. Qed.

Lemma shiftl_12 x : x ≪ 12 = x * 4096.
Proof. by rewrite Z.shiftl_mul_pow2. Qed.

Lemma shiftl_18 x : x ≪ 18 = x * 262144.
Proof. by rewrite Z.shiftl_mul_pow2. Qed.

Lemma shiftr_6 x : x ≫ 6 = x / 64.
Proof. by rewrite Z.shiftr_div_pow2. Qed.

Lemma shiftr_12 x : x ≫ 12 = x / 4096.
Proof. by rewrite Z.shiftr_div_pow2. Qed.

Lemma shiftr_18 x : x ≫ 18 = x / 262144.
Proof. by rewrite Z.shiftr_div_pow2. Qed.

(** The bytes that [utf8.AppendRune] writes. *)
Lemma byte_val_continuation x :
  byte_val (utf8.bor utf8.tx (utf8.band (to_byte x) utf8.maskx)) = 128 + x mod 64.
Proof.
  unfold utf8.bor, utf8.band. rewrite !byte_val_to_byte, land_maskx.
  change utf8.tx with (2 * 64). rewrite (lor_add _ _ 64 6) by first [reflexivity | zlia]. zlia.
Qed.

Lemma byte_val_lead2 x :
  0 ≤ x < 32 → byte_val (utf8.bor utf8.t2 (to_byte x)) = 192 + x.
Proof.
  intros Hx. unfold utf8.bor. rewrite !byte_val_to_byte.
  change utf8.t2 with (6 * 32). rewrite (lor_add _ _ 32 5) by first [reflexivity | zlia]. zlia.
Qed.

Lemma byte_val_lead3 x :
  0 ≤ x < 16 → byte_val (utf8.bor utf8.t3 (to_byte x)) = 224 + x.
Proof.
  intros Hx. unfold utf8.bor. rewrite !byte_val_to_byte.
  change utf8.t3 with (14 * 16). rewrite (lor_add _ _ 16 4) by first [reflexivity | zlia]. zlia.
Qed.

Lemma byte_val_lead4 x :
  0 ≤ x < 8 → byte_val (utf8.bor utf8.t4 (to_byte x)) = 240 + x.
Proof.
  intros Hx. unfold utf8.bor. rewrite !byte_val_to_byte.
  change utf8.t4 with (30 * 8). rewrite (lor_add _ _ 8 3) by first [reflexivity | zlia]. zlia.
Qed.

(** The runes that [decoderune] puts together. *)
Lemma decode2 s0 s1 :
  Z.lor (Z.land s0 utf8.mask2 ≪ 6) (Z.land s1 utf8.maskx)
  = s0 mod 32 * 64 + s1 mod 64.
Proof.
  rewrite land_mask2, land_maskx, shiftl_6.
  by rewrite (lor_add _ _ 64 6) by first [reflexivity | zlia].
Qed.

Lemma decode3 s0 s1 s2 :
  Z.lor (Z.lor (Z.land s0 utf8.mask3 ≪ 12) (Z.land s1 utf8.maskx ≪ 6))
        (Z.land s2 utf8.maskx)
  = s0 mod 16 * 4096 + s1 mod 64 * 64 + s2 mod 64.
Proof.
  rewrite land_mask3, !land_maskx, shiftl_12, shiftl_6.
  rewrite (lor_add _ _ 4096 12) by first [reflexivity | zlia].
  replace (s0 mod 16 * 4096 + s1 mod 64 * 64) with ((s0 mod 16 * 64 + s1 mod 64) * 64) by lia.
  rewrite (lor_add _ _ 64 6) by first [reflexivity | zlia]. zlia.
Qed.

Lemma decode4 s0 s1 s2 s3 :
  Z.lor (Z.lor (Z.lor (Z.land s0 utf8.mask4 ≪ 18) (Z.land s1 utf8.maskx ≪ 12))
               (Z.land s2 utf8.maskx ≪ 6))
        (Z.land s3 utf8.maskx)
  = s0 mod 8 * 262144 + s1 mod 64 * 4096 + s2 mod 64 * 64 + s3 mod 64.
Proof.
  rewrite land_mask4, !land_maskx, shiftl_18, shiftl_12, shiftl_6.
  rewrite (lor_add _ _ 262144 18) by first [reflexivity | zlia].
  replace (s0 mod 8 * 262144 + s1 mod 64 * 4096)
    with ((s0 mod 8 * 64 + s1 mod 64) * 4096) by lia.
  rewrite (lor_add _ _ 4096 12) by first [reflexivity | zlia].
  replace ((s0 mod 8 * 64 + s1 mod 64) * 4096 + s2 mod 64 * 64)
    with (((s0 mod 8 * 64 + s1 mod 64) * 64 + s2 mod 64) * 64) by lia.
  rewrite (lor_add _ _ 64 6) by first [reflexivity | zlia]. zlia.
Qed.

Lemma valid_rune_spec r :
  valid_rune r = true ↔ 0 ≤ r ≤ MaxRune ∧ ¬ (0xD800 ≤ r ≤ 0xDFFF).
Proof.
  unfold valid_rune. rewrite !andb_true_iff, negb_true_iff, andb_false_iff.
  rewrite !Z.leb_le, !Z.leb_gt. lia.
Qed.

(** Deciding the comparisons of a goal. *)
Ltac decide_cmp :=
  repeat match goal with
    | |- context [?a <=? ?b] =>
        destruct (Z.leb_spec a b); [try (exfalso; zlia)|try (exfalso; zlia)]; cbn [andb orb negb]
    | |- context [?a <? ?b] =>
        destruct (Z.ltb_spec a b); [try (exfalso; zlia)|try (exfalso; zlia)]; cbn [andb orb negb]
    end.

(** The encoding of a scalar value, by its size. *)
Lemma AppendRune_scalar r :
  valid_rune r = true →
  utf8.AppendRune [] r =
    if r <=? utf8.rune1Max then [to_byte r]
    else if r <=? utf8.rune2Max then
      [utf8.bor utf8.t2 (to_byte (r ≫ 6));
       utf8.bor utf8.tx (utf8.band (to_byte r) utf8.maskx)]
    else if r <=? utf8.rune3Max then
      [utf8.bor utf8.t3 (to_byte (r ≫ 12));
       utf8.bor utf8.tx (utf8.band (to_byte (r ≫ 6)) utf8.maskx);
       utf8.bor utf8.tx (utf8.band (to_byte r) utf8.maskx)]
    else
      [utf8.bor utf8.t4 (to_byte (r ≫ 18));
       utf8.bor utf8.tx (utf8.band (to_byte (r ≫ 12)) utf8.maskx);
       utf8.bor utf8.tx (utf8.band (to_byte (r ≫ 6)) utf8.maskx);
       utf8.bor utf8.tx (utf8.band (to_byte r) utf8.maskx)].
Proof.
  intros [Hr Hs]%valid_rune_spec. unfold MaxRune in Hr.
  unfold utf8.AppendRune, uint32. rewrite Z.mod_small by lia.
  unfold utf8.rune1Max, utf8.rune2Max, utf8.rune3Max, utf8.surrogateMin,
    utf8.surrogateMax, MaxRune.
  by decide_cmp.
Qed.

(** Ranging over the encoding of a scalar value yields it, and passes the
    bytes of the encoding. *)
Lemma range_step_AppendRune r rest :
  valid_rune r = true →
  range_step (utf8.AppendRune [] r ++ rest) = (r, length (utf8.AppendRune [] r)).
Proof.
  intros Hv. rewrite (AppendRune_scalar r Hv).
  apply valid_rune_spec in Hv as [Hr Hs]. unfold MaxRune in Hr.
  unfold utf8.rune1Max, utf8.rune2Max, utf8.rune3Max.
  destruct (Z.leb_spec r (2 ^ 7 - 1)) as [H1|H1];
    [|destruct (Z.leb_spec r (2 ^ 11 - 1)) as [H2|H2];
      [|destruct (Z.leb_spec r (2 ^ 16 - 1)) as [H3|H3]]];
    cbn [app length range_step utf8.decoderune]; unfold utf8.continues;
    rewrite ?shiftr_6, ?shiftr_12, ?shiftr_18, ?byte_val_continuation.
  - rewrite byte_val_to_byte, Z.mod_small by lia.
    unfold utf8.RuneSelf. by decide_cmp.
  - rewrite byte_val_lead2 by zlia. rewrite decode2.
    replace ((192 + r / 64) mod 32 * 64 + (128 + r mod 64) mod 64) with r by zlia.
    unfold utf8.RuneSelf, utf8.t2, utf8.t3, utf8.locb, utf8.hicb, utf8.rune1Max.
    by decide_cmp.
  - rewrite byte_val_lead3 by zlia. rewrite decode3.
    replace ((224 + r / 4096) mod 16 * 4096 + (128 + (r / 64) mod 64) mod 64 * 64
             + (128 + r mod 64) mod 64) with r by zlia.
    unfold utf8.RuneSelf, utf8.t2, utf8.t3, utf8.t4, utf8.locb, utf8.hicb,
      utf8.rune2Max, utf8.surrogateMin, utf8.surrogateMax.
    by decide_cmp.
  - rewrite byte_val_lead4 by zlia. rewrite decode4.
    replace ((240 + r / 262144) mod 8 * 262144 + (128 + (r / 4096) mod 64) mod 64 * 4096
             + (128 + (r / 64) mod 64) mod 64 * 64 + (128 + r mod 64) mod 64) with r by zlia.
    unfold utf8.RuneSelf, utf8.t2, utf8.t3, utf8.t4, utf8.t5, utf8.locb, utf8.hicb,
      utf8.rune3Max, MaxRune.
    by decide_cmp.
Qed.

Lemma AppendRune_length r : (1 ≤ length (utf8.AppendRune [] r))%nat.
Proof. unfold utf8.AppendRune. repeat case_match; simpl; lia. Qed.

Lemma AppendRune_app p r : utf8.AppendRune p r = p ++ utf8.AppendRune [] r.
Proof. unfold utf8.AppendRune. by repeat case_match. Qed.

Lemma Builder_String_snoc b r :
  Builder_String (b ++ [r]) = utf8.AppendRune (Builder_String b) r.
Proof. unfold Builder_String. by rewrite foldl_app. Qed.

Lemma Builder_String_app b1 b2 :
  Builder_String (b1 ++ b2) = Builder_String b1 ++ Builder_String b2.
Proof.
  induction b2 as [|r b2 IH] using rev_ind; [by rewrite !app_nil_r|].
  rewrite app_assoc, !Builder_String_snoc, IH.
  rewrite (AppendRune_app (_ ++ _)), (AppendRune_app (Builder_String b2)).
  by rewrite app_assoc.
Qed.

Lemma Builder_String_cons r b :
  Builder_String (r :: b) = utf8.AppendRune [] r ++ Builder_String b.
Proof. apply (Builder_String_app [r] b). Qed.

(** [AppendRune] writes U+FFFD for a rune that is no scalar value, so the
    builder holds the bytes of the runes that [WriteRune] keeps. *)
Lemma AppendRune_sanitize p r :
  - 2 ^ 31 ≤ r < 2 ^ 31 → utf8.AppendRune p (sanitize r) = utf8.AppendRune p r.
Proof.
  intros Hr. unfold sanitize. destruct (valid_rune r) eqn:Hv; [done|].
  assert (¬ (0 ≤ r ≤ MaxRune ∧ ¬ (0xD800 ≤ r ≤ 0xDFFF))) as Hn.
  { rewrite <- valid_rune_spec. congruence. }
  unfold MaxRune in Hn.
  rewrite (AppendRune_app p RuneError), (AppendRune_app p r). f_equal.
  unfold utf8.AppendRune at 2, uint32.
  unfold utf8.rune1Max, utf8.rune2Max, utf8.rune3Max, utf8.surrogateMin,
    utf8.surrogateMax, MaxRune.
  destruct (Z_lt_le_dec r 0) as [Hneg|Hpos].
  - replace (r mod 2 ^ 32) with (r + 2 ^ 32) by zlia. by decide_cmp.
  - rewrite Z.mod_small by lia. by decide_cmp.
Qed.

Lemma WriteRune_bytes b r :
  - 2 ^ 31 ≤ r < 2 ^ 31 →
  Builder_String (WriteRune b r) = utf8.AppendRune (Builder_String b) r.
Proof.
  intros Hr. unfold WriteRune. by rewrite Builder_String_snoc, AppendRune_sanitize.
Qed.

(** The scan passes the bytes it was told to skip. *)
Lemma range_from_skip (skip : nat) (p rest : list byte) :
  length p = skip → range_from skip (p ++ rest) = range_from 0 rest.
Proof.
  revert skip. induction p as [|b p IH]; intros skip <-; [done|].
  simpl. by apply IH.
Qed.

Lemma range_string_AppendRune r rest :
  valid_rune r = true →
  range_string (utf8.AppendRune [] r ++ rest) = r :: range_string rest.
Proof.
  intros Hv. unfold range_string.
  pose proof (range_step_AppendRune r rest Hv) as Hstep.
  pose proof (AppendRune_length r) as Hlen.
  destruct (utf8.AppendRune [] r) as [|b p] eqn:Henc; [simpl in Hlen; lia|].
  change ((b :: p) ++ rest) with (b :: p ++ rest) in *.
  cbn [range_from]. rewrite Hstep. f_equal.
  apply range_from_skip. simpl. lia.
Qed.

(** Ranging over what a builder holds yields the runes written to it. *)
Lemma range_string_Builder_String rs :
  is_string rs → range_string (Builder_String rs) = rs.
Proof.
  induction 1 as [|r rs Hr _ IH]; [done|].
  by rewrite Builder_String_cons, range_string_AppendRune, IH.
Qed.

(** Every rune that a [range] over a string yields is a scalar value. *)
Lemma range_step_valid s : valid_rune (range_step s).1 = true.
Proof.
  unfold range_step, utf8.decoderune.
  repeat case_match; simplify_eq/=; try done.
  all: apply valid_rune_spec.
  all: repeat match goal with
         | H : _ && _ = true |- _ => apply andb_true_iff in H as [? ?]
         | H : negb _ = true |- _ => apply negb_true_iff in H
         | H : _ && _ = false |- _ => apply andb_false_iff in H
         | H : (_ <? _) = true |- _ => apply Z.ltb_lt in H
         | H : (_ <=? _) = true |- _ => apply Z.leb_le in H
         | H : (_ <? _) = false |- _ => apply Z.ltb_ge in H
         | H : (_ <=? _) = false |- _ => apply Z.leb_gt in H
         end.
  all: unfold utf8.RuneSelf, utf8.rune1Max, utf8.rune2Max, utf8.rune3Max,
         utf8.surrogateMin, utf8.surrogateMax, MaxRune in *.
  all: try (pose proof (byte_val_range b); lia).
  all: rewrite ?decode2, ?decode3, ?decode4 in *; zlia.
Qed.

Lemma range_from_is_string skip s : is_string (range_from skip s).
Proof.
  revert skip. induction s as [|b s IH]; intros skip; [constructor|].
  cbn [range_from]. destruct skip as [|skip]; [|apply IH].
  pose proof (range_step_valid (b :: s)) as Hv.
  destruct (range_step (b :: s)) as [r size]. constructor; [done|apply IH].
Qed.

Lemma range_string_is_string s : is_string (range_string s).
Proof. apply range_from_is_string. Qed.

(** A string is valid UTF-8 exactly when writing the runes it is ranged
    as gives the string back. *)
Lemma valid_utf8_iff s : valid_utf8 s ↔ Builder_String (range_string s) = s.
Proof.
  split.
  - intros (rs & Hrs & ->). by rewrite range_string_Builder_String.
  - intros Hs. exists (range_string s). split; [apply range_string_is_string|done].
Qed.

(* --------------------------------------------------------------------- *)
(** * The case-shift transform                                            *)
(* --------------------------------------------------------------------- *)

Section ShiftFacts.
Context `{Unicode}.

Lemma ToLower_not_marker c :
  c ≠ upArrow → c ≠ downArrow → ToUpper (ToLower c) = c →
  ToLower c ≠ upArrow ∧ ToLower c ≠ downArrow.
Proof.
  intros Hu Hd Hc. split; intros E; rewrite E in Hc.
  - rewrite ToUpper_upArrow in Hc. congruence.
  - rewrite ToUpper_downArrow in Hc. congruence.
Qed.

(** Undoing the output of the forward scan restores the prefix scanned so
    far and reaches the same shift state. *)
Lemma removeShift_applyShift_state s :
  is_string s → upArrow ∉ s → downArrow ∉ s → case_stable s →
  foldl removeShift_step ([], false) (foldl applyShift_step ([], false) s).1
  = (s, (foldl applyShift_step ([], false) s).2).
Proof.
  induction s as [|c s IH] using rev_ind; [done|].
  intros [Hs Hc]%is_string_app Hu Hd Hst.
  unfold is_string in Hc; rewrite Forall_singleton in Hc.
  rewrite !foldl_snoc.
  assert (c ≠ upArrow) as Hcu by (intros ->; apply Hu; set_solver).
  assert (c ≠ downArrow) as Hcd by (intros ->; apply Hd; set_solver).
  assert (IsLower c = false → ToUpper (ToLower c) = c) as Hcst
    by (apply Hst; set_solver).
  assert (upArrow ∉ s) as Hu' by (intros ?; apply Hu; set_solver).
  assert (downArrow ∉ s) as Hd' by (intros ?; apply Hd; set_solver).
  assert (case_stable s) as Hst' by (intros x Hx; apply Hst; set_solver).
  specialize (IH Hs Hu' Hd' Hst'). clear Hu' Hd' Hst'.
  destruct (foldl applyShift_step ([], false) s) as [out sh]; simpl in *.
  assert (∀ o u b, foldl removeShift_step ([], false) o = (u, b) →
            IsLower c = false →
            foldl removeShift_step ([], false) (o ++ [ToLower c])
            = (if b then u ++ [c] else u ++ [ToLower c], b)) as Hlow.
  { intros o u b Hout Hl. rewrite foldl_snoc, Hout. simpl.
    destruct (ToLower_not_marker c Hcu Hcd (Hcst Hl)) as [? ?].
    rewrite (proj2 (Z.eqb_neq _ _)), (proj2 (Z.eqb_neq _ _)) by done.
    destruct b.
    + rewrite WriteRune_valid by (rewrite Hcst; done). by rewrite Hcst.
    + by rewrite WriteRune_valid by (by apply ToLower_valid). }
  unfold applyShift_step.
  destruct (IsUpper c) eqn:Hup; destruct sh; simpl.
  - (* upper while shifted: lower-cased *)
    pose proof (upper_not_lower c Hup) as Hl. rewrite Hl. simpl.
    rewrite WriteRune_valid by (by apply ToLower_valid).
    rewrite (Hlow _ _ _ IH Hl). done.
  - (* upper while unshifted: marker, then lower-cased *)
    pose proof (upper_not_lower c Hup) as Hl.
    rewrite (WriteRune_valid _ upArrow) by done.
    rewrite WriteRune_valid by (by apply ToLower_valid).
    assert (foldl removeShift_step ([], false) (out ++ [upArrow]) = (s, true)) as Hm.
    { rewrite foldl_snoc, IH. done. }
    rewrite (Hlow _ _ _ Hm Hl). done.
  - destruct (IsLower c) eqn:Hl; simpl.
    + (* lower while shifted: marker, then the symbol *)
      rewrite (WriteRune_valid _ downArrow) by done.
      rewrite WriteRune_valid by done.
      rewrite foldl_snoc, foldl_snoc, IH. simpl.
      rewrite (proj2 (Z.eqb_neq _ _)), (proj2 (Z.eqb_neq _ _)) by done.
      by rewrite WriteRune_valid.
    + rewrite WriteRune_valid by (by apply ToLower_valid).
      rewrite (Hlow _ _ _ IH eq_refl). done.
  - (* unshifted, not upper: unchanged *)
    rewrite andb_false_r.
    rewrite WriteRune_valid by done. simpl.
    rewrite foldl_snoc, IH. simpl.
    rewrite (proj2 (Z.eqb_neq _ _)), (proj2 (Z.eqb_neq _ _)) by done.
    by rewrite WriteRune_valid.
Qed.

Lemma applyShift_step_upper out sh c :
  IsUpper c = true →
  applyShift_step (out, sh) c
  = (WriteRune (if sh then out else WriteRune out upArrow) (ToLower c), true).
Proof.
  intros Hup. unfold applyShift_step. rewrite Hup, (upper_not_lower c Hup).
  by destruct sh.
Qed.

Lemma applyShift_no_upper_state s :
  is_string s → lowered_not_upper s →
  ∀ r, r ∈ (foldl applyShift_step ([], false) s).1 → IsUpper r = false.
Proof.
  induction s as [|c s IH] using rev_ind; [by intros _ _ r ?%elem_of_nil|].
  intros [Hs Hc]%is_string_app Hst.
  unfold is_string in Hc; rewrite Forall_singleton in Hc.
  assert (lowered_not_upper s) as Hst' by (intros x Hx; apply Hst; set_solver).
  assert (IsLower c = false → IsUpper (ToLower c) = false) as Hcst
    by (apply Hst; set_solver).
  specialize (IH Hs Hst'). clear Hst'.
  rewrite foldl_snoc.
  destruct (foldl applyShift_step ([], false) s) as [out sh]; simpl in IH.
  pose proof IsUpper_upArrow. pose proof IsUpper_downArrow.
  assert (IsLower c = true → IsUpper c = false) as Hlu.
  { intros Hl. destruct (IsUpper c) eqn:E; [|done].
    apply upper_not_lower in E. congruence. }
  unfold applyShift_step.
  repeat case_match; simpl;
    rewrite ?(WriteRune_valid _ upArrow), ?(WriteRune_valid _ downArrow) by done;
    rewrite ?(WriteRune_valid _ c) by done;
    rewrite ?(WriteRune_valid _ (ToLower c)) by (by apply ToLower_valid);
    intros r; rewrite ?elem_of_app, ?list_elem_of_singleton;
    intros Hr; destruct_or?; subst; auto;
    repeat match goal with
      | E : _ && _ = true |- _ => apply andb_true_iff in E as [? ?]
      | E : _ && _ = false |- _ => apply andb_false_iff in E
      end; destruct_or?; simplify_eq/=; auto.
  all: apply Hcst; by apply upper_not_lower.
Qed.

Lemma applyShift_step_output out sh c :
  is_string out →
  let st := applyShift_step (out, sh) c in
  is_string st.1 ∧ (S (length out) ≤ length st.1 ≤ S (S (length out)))%nat.
Proof.
  intros Hout. unfold applyShift_step, WriteRune.
  repeat case_match; simpl; rewrite ?length_app; simpl;
    (split; [repeat apply WriteRune_is_string; done | lia]).
Qed.

Lemma applyShiftString_is_string (s : list rune) : is_string (applyShiftString s).
Proof.
  unfold applyShiftString. induction s as [|c s IHs] using rev_ind; [constructor|].
  rewrite foldl_snoc.
  destruct (foldl applyShift_step ([], false) s) as [out sh]. cbn [fst] in IHs.
  by destruct (applyShift_step_output out sh c IHs).
Qed.

(** C4, as amended: for a string [s] that is valid UTF-8, holds neither
    marker, and in which upper-casing undoes lower-casing on every symbol
    that is not lower case, [removeShiftString(applyShiftString(s))] is
    [s], byte for byte. *)
Theorem removeShiftString_applyShiftString (s : list byte) :
  valid_utf8 s →
  upArrow ∉ range_string s → downArrow ∉ range_string s →
  case_stable (range_string s) →
  removeShiftString_bytes (applyShiftString_bytes s) = s.
Proof.
  intros Hv Hu Hd Hst. unfold removeShiftString_bytes, applyShiftString_bytes.
  rewrite range_string_Builder_String by apply applyShiftString_is_string.
  unfold removeShiftString, applyShiftString.
  rewrite removeShift_applyShift_state; [|apply range_string_is_string|done..].
  by apply valid_utf8_iff.
Qed.

(** C10, as amended: in every case an upper-case symbol of the input is
    emitted as its [ToLower] image, after a shift-in marker when the scan
    was unshifted; and when lower-casing a symbol of [s] that is not lower
    case never gives an upper-case symbol, the output of
    [applyShiftString s] holds no upper-case symbol. *)
Theorem applyShiftString_no_upper s :
  is_string s →
  (∀ p c q, s = p ++ c :: q → IsUpper c = true →
     let st := foldl applyShift_step ([], false) p in
     foldl applyShift_step ([], false) (p ++ [c])
     = (st.1 ++ (if st.2 then [] else [upArrow]) ++ [ToLower c], true)) ∧
  (lowered_not_upper s → ∀ r, r ∈ applyShiftString s → IsUpper r = false).
Proof.
  intros Hs. split; [|intros Hst; by apply applyShift_no_upper_state].
  intros p c q -> Hup. simpl. rewrite foldl_snoc.
  apply is_string_app in Hs as [_ Hc]. apply Forall_cons in Hc as [Hc _].
  destruct (foldl applyShift_step ([], false) p) as [out sh].
  rewrite applyShift_step_upper by done. simpl.
  rewrite WriteRune_valid by (by apply ToLower_valid).
  destruct sh; [done|].
  by rewrite WriteRune_valid, <- app_assoc.
Qed.
End ShiftFacts.

(** ** The excerpt of Go's tables satisfies the interface *)

Lemma forallb_seqZ (P : Z → bool) (lo n : Z) :
  forallb P (seqZ lo n) = true → ∀ r, lo ≤ r < lo + n → P r = true.
Proof.
  intros Hall r Hr. rewrite forallb_forall in Hall.
  apply Hall, list_elem_of_In, elem_of_seqZ. lia.
Qed.

Ltac decide_leb :=
  repeat match goal with
    | |- context [?a <=? ?b] => destruct (Z.leb_spec a b); [try lia|try lia]; simpl
    | |- context [?a <? ?b] => destruct (Z.ltb_spec a b); [try lia|try lia]; simpl
    end.

Module GoUnicodeFacts.
Import GoUnicode.

Lemma ToLower_above r : 0x137 < r → ToLower r = r.
Proof.
  intros Hr. unfold ToLower, MaxASCII, CaseRanges; simpl. by decide_leb.
Qed.

Lemma IsLower_above r : 0x137 < r → IsLower r = false.
Proof.
  intros Hr. unfold IsLower, Is, Lower; simpl. by decide_leb.
Qed.

Lemma valid_rune_nonneg r : valid_rune r = true → 0 ≤ r.
Proof. unfold valid_rune. destruct (Z.leb_spec 0 r); [done | by simpl]. Qed.

Lemma ToLower_valid r : valid_rune r = true → valid_rune (ToLower r) = true.
Proof.
  intros Hr. destruct (Z_le_gt_dec r 0x137) as [Hle|Hgt].
  - pose proof (valid_rune_nonneg r Hr).
    apply (forallb_seqZ (λ r, valid_rune (ToLower r)) 0 0x138); [by vm_compute | lia].
  - rewrite ToLower_above by lia. done.
Qed.

Lemma upper_not_lower r : IsUpper r = true → IsLower r = false.
Proof.
  intros Hr. destruct (Z_le_gt_dec r 0x137) as [Hle|Hgt].
  - destruct (Z_lt_le_dec r 0) as [Hneg|Hpos].
    + unfold IsLower, Is, Lower; simpl. by decide_leb.
    + assert (negb (IsUpper r) || negb (IsLower r) = true) as Hb.
      { apply (forallb_seqZ (λ r, negb (IsUpper r) || negb (IsLower r)) 0 0x138);
          [by vm_compute | lia]. }
      rewrite Hr in Hb. by destruct (IsLower r).
  - apply IsLower_above. lia.
Qed.

End GoUnicodeFacts.

#[global] Instance go_unicode : Unicode := {|
  IsUpper := GoUnicode.IsUpper;
  IsLower := GoUnicode.IsLower;
  ToUpper := GoUnicode.ToUpper;
  ToLower := GoUnicode.ToLower;
  ToLower_valid := GoUnicodeFacts.ToLower_valid;
  upper_not_lower := GoUnicodeFacts.upper_not_lower;
  IsUpper_upArrow := eq_refl;
  IsUpper_downArrow := eq_refl;
  ToUpper_upArrow := eq_refl;
  ToUpper_downArrow := eq_refl;
|}.

(** With Go's tables, both conditions hold for text in U+0000..U+00FF. *)
Lemma latin1_case_stable (s : list rune) :
  Forall (λ c, 0 ≤ c ≤ MaxLatin1) s → case_stable s.
Proof.
  intros Hs c Hc Hl. rewrite Forall_forall in Hs. specialize (Hs c Hc).
  assert (IsLower c || (ToUpper (ToLower c) =? c) = true) as Hb.
  { apply (forallb_seqZ (λ c, IsLower c || (ToUpper (ToLower c) =? c)) 0 0x100);
      [by vm_compute | unfold MaxLatin1 in Hs; lia]. }
  rewrite Hl in Hb. by apply Z.eqb_eq.
Qed.

Lemma latin1_lowered_not_upper (s : list rune) :
  Forall (λ c, 0 ≤ c ≤ MaxLatin1) s → lowered_not_upper s.
Proof.
  intros Hs c Hc Hl. rewrite Forall_forall in Hs. specialize (Hs c Hc).
  assert (IsLower c || negb (IsUpper (ToLower c)) = true) as Hb.
  { apply (forallb_seqZ (λ c, IsLower c || negb (IsUpper (ToLower c))) 0 0x100);
      [by vm_compute | unfold MaxLatin1 in Hs; lia]. }
  rewrite Hl in Hb. by apply negb_true_iff.
Qed.

(** ** The transform on concrete strings *)

Ltac in_list_cases H :=
  apply list_elem_of_In in H; simpl in H; destruct_or?; try done; subst.

Lemma range_string_Ete : range_string Ete_bytes = [0xC9; 0x74; 0xE9].
Proof. reflexivity. Qed.

(** C4 on "Été": the shifted string is "↑é↓té". *)
Lemma removeShiftString_applyShiftString_witness :
  removeShiftString_bytes (applyShiftString_bytes Ete_bytes) = Ete_bytes.
Proof.
  apply removeShiftString_applyShiftString; rewrite ?range_string_Ete.
  - exists [0xC9; 0x74; 0xE9]. split; [repeat constructor|reflexivity].
  - intros Hin. by in_list_cases Hin.
  - intros Hin. by in_list_cases Hin.
  - intros c Hin Hl. in_list_cases Hin; first [reflexivity | discriminate Hl].
Defined.

(** C4 fails without either condition.  "\xff" is not UTF-8: it holds no
    marker and no symbol with case, it is ranged as U+FFFD, and it comes
    back as the three bytes of U+FFFD.  "İ" (U+0130, LATIN CAPITAL LETTER I
    WITH DOT ABOVE) is valid UTF-8 without markers: it is upper case and
    its lower-case mapping is U+0069 'i', whose upper-case mapping is
    U+0049 'I'. *)
Lemma removeShiftString_applyShiftString_counterexample :
  (¬ valid_utf8 ff ∧ range_string ff = [RuneError] ∧
   (upArrow ∉ range_string ff) ∧ (downArrow ∉ range_string ff) ∧
   case_stable (range_string ff) ∧
   removeShiftString_bytes (applyShiftString_bytes ff) = [xef; xbf; xbd] ∧
   [xef; xbf; xbd] ≠ ff) ∧
  (valid_utf8 I_dot_bytes ∧ range_string I_dot_bytes = [0x130] ∧
   (upArrow ∉ range_string I_dot_bytes) ∧ (downArrow ∉ range_string I_dot_bytes) ∧
   applyShiftString_bytes I_dot_bytes = [xe2; x86; x91; x69] ∧
   removeShiftString_bytes (applyShiftString_bytes I_dot_bytes) = [x49] ∧
   [x49] ≠ I_dot_bytes).
Proof.
  assert (range_string ff = [RuneError]) as Hff by reflexivity.
  assert (range_string I_dot_bytes = [0x130]) as HI by reflexivity.
  split; split_and!; rewrite ?Hff, ?HI; try done.
  - by intros Hv%valid_utf8_iff.
  - intros Hin. by in_list_cases Hin.
  - intros Hin. by in_list_cases Hin.
  - intros c Hin Hl. by in_list_cases Hin.
  - exists [0x130]. split; [repeat constructor|reflexivity].
  - intros Hin. by in_list_cases Hin.
  - intros Hin. by in_list_cases Hin.
Qed.

(** C10 on "AbRaCaDaBrA". *)
Lemma applyShiftString_no_upper_witness :
  (∀ p c q, AbRaCaDaBrA = p ++ c :: q → IsUpper c = true →
     let st := foldl applyShift_step ([], false) p in
     foldl applyShift_step ([], false) (p ++ [c])
     = (st.1 ++ (if st.2 then [] else [upArrow]) ++ [ToLower c], true)) ∧
  (∀ r, r ∈ applyShiftString AbRaCaDaBrA → IsUpper r = false).
Proof.
  destruct (applyShiftString_no_upper AbRaCaDaBrA) as [Hlow Hno]; [repeat constructor|].
  split; [exact Hlow|apply Hno].
  intros c Hin Hl. in_list_cases Hin; first [reflexivity | discriminate Hl].
Defined.

(** C10 fails on U+2102 (DOUBLE-STRUCK CAPITAL C): it is upper case and has
    no lower-case mapping, so it is written to the output as it is. *)
Lemma applyShiftString_no_upper_counterexample :
  applyShiftString [0x2102] = [upArrow; 0x2102] ∧
  0x2102 ∈ applyShiftString [0x2102] ∧ IsUpper 0x2102 = true.
Proof.
  split_and!; try done. set_solver.
Qed.

(* --------------------------------------------------------------------- *)
(** * Decoding never fails                                                *)
(* --------------------------------------------------------------------- *)

Lemma range_order_map_to_list `{Countable K} {V} (m : gmap K V) :
  range_order m (map_to_list m).
Proof. by unfold range_order. Qed.

(** When the loop ends, the candidate buffer holds the runes read since the
    last emitted symbol, and the symbols emitted are the decoding of what
    came before them. *)
Lemma decode_loop_leftover (reversed : gmap (list rune) Z) (s : list rune) :
  ∃ pre rest, s = pre ++ rest ∧
    (decode_loop reversed s).2 = sanitize <$> rest ∧
    decode_loop reversed pre = ((decode_loop reversed s).1, []).
Proof.
  unfold decode_loop.
  induction s as [|c s (pre & rest & Hs & Hcode & Hpre)] using rev_ind.
  { by exists [], []. }
  rewrite foldl_snoc.
  destruct (foldl (decode_step reversed) ([], []) s) as [decoded code] eqn:Hloop.
  simpl in *. destruct (reversed !! WriteRune code c) eqn:Hlook.
  - exists (s ++ [c]), []. rewrite app_nil_r, foldl_snoc, Hloop. simpl.
    by rewrite Hlook.
  - exists pre, (rest ++ [c]). subst s. rewrite app_assoc. split_and!; [done| |done].
    simpl. unfold WriteRune. by rewrite Hcode, fmap_app.
Qed.

(** C8, as amended: [applyHuffmanDecoding] has no failure at all.  For
    every stream and every code table it returns a string; what is left in
    the candidate buffer at the end of the stream (matched by no entry) is
    dropped, and the result is the decoding of the stream without it. *)
Theorem applyHuffmanDecoding_drops_leftover (s : list rune) (encoding : gmap Z (list rune)) :
  (∃ decoded, applyHuffmanDecoding s encoding decoded) ∧
  (∀ kvs, ∃ pre rest, s = pre ++ rest ∧
     (decode_loop (reverseMap_visiting kvs) s).2 = sanitize <$> rest ∧
     applyHuffmanDecoding_visiting kvs s = applyHuffmanDecoding_visiting kvs pre ∧
     (decode_loop (reverseMap_visiting kvs) pre).2 = []).
Proof.
  split.
  - exists (applyHuffmanDecoding_visiting (map_to_list encoding) s).
    exists (map_to_list encoding). split; [apply range_order_map_to_list | done].
  - intros kvs.
    destruct (decode_loop_leftover (reverseMap_visiting kvs) s)
      as (pre & rest & Hs & Hcode & Hpre).
    exists pre, rest. unfold applyHuffmanDecoding_visiting. by rewrite Hpre.
Qed.

(** C8 fails on the stream "01" with the table a ↦ "0", b ↦ "10": when the
    stream ends the buffer holds "1", which no entry matches, and the call
    returns "a". *)
Lemma applyHuffmanDecoding_counterexample :
  let kvs := map_to_list table_a0_b10 in
  decode_loop (reverseMap_visiting kvs) [bit0; bit1] = ([97], [bit1]) ∧
  reverseMap_visiting kvs !! [bit1] = None ∧
  applyHuffmanDecoding [bit0; bit1] table_a0_b10 [97].
Proof.
  split_and!; [by vm_compute | by vm_compute |].
  exists (map_to_list table_a0_b10). split; [apply range_order_map_to_list | by vm_compute].
Qed.

(* --------------------------------------------------------------------- *)
(** * The priority queue only reorders its content                        *)
(* --------------------------------------------------------------------- *)

Lemma bind_Returns {A B} (f : A → outcome B) (a : A) : (Returns a ≫= f) = f a.
Proof. reflexivity. Qed.

Lemma len_nonneg {A} (l : list A) : 0 ≤ len l.
Proof. unfold len. lia. Qed.

Lemma index_Returns {A} (l : list A) (i : Z) :
  0 ≤ i < len l → ∃ a, index l i = Returns a ∧ l !! Z.to_nat i = Some a.
Proof.
  intros Hi. unfold index, len in *.
  destruct (Z.ltb_spec i 0); [lia|].
  destruct (lookup_lt_is_Some_2 l (Z.to_nat i)) as [a Ha]; [lia|].
  exists a. by rewrite Ha.
Qed.

Lemma Less_Returns (pq : PriorityQueue) (i j : Z) :
  0 ≤ i < len pq → 0 ≤ j < len pq → ∃ b, Less pq i j = Returns b.
Proof.
  intros (a & Ha & _)%index_Returns (b & Hb & _)%index_Returns.
  unfold Less. rewrite Ha, Hb. simpl. eauto.
Qed.

Lemma insert_Permutation {A} (l : list A) (i : nat) (a b : A) :
  l !! i = Some b → b :: <[i := a]> l ≡ₚ a :: l.
Proof.
  revert i. induction l as [|x l IH]; intros [|i] Hi; simplify_eq/=.
  - apply perm_swap.
  - rewrite (perm_swap x b), IH by done. apply perm_swap.
Qed.

Lemma swap_Permutation {A} (l : list A) (i j : nat) (a b : A) :
  l !! i = Some a → l !! j = Some b →
  <[j := a]> (<[i := b]> l) ≡ₚ l.
Proof.
  intros Hi Hj. destruct (decide (i = j)) as [->|Hne].
  - simplify_eq. rewrite list_insert_insert_eq. by rewrite list_insert_id.
  - apply (Permutation_cons_inv (a := b)).
    rewrite (insert_Permutation (<[i:=b]> l) j a b)
      by (by rewrite list_lookup_insert_ne).
    by apply insert_Permutation.
Qed.

Lemma Swap_Returns (pq : PriorityQueue) (i j : Z) :
  0 ≤ i < len pq → 0 ≤ j < len pq →
  ∃ pq', Swap pq i j = Returns pq' ∧ pq' ≡ₚ pq.
Proof.
  intros (a & Ha & Hai)%index_Returns (b & Hb & Hbj)%index_Returns.
  unfold Swap. rewrite Ha, Hb. simpl. eexists; split; [done|].
  by apply swap_Permutation.
Qed.

Lemma len_Permutation {A} (l1 l2 : list A) : l1 ≡ₚ l2 → len l1 = len l2.
Proof. intros Hp. unfold len. by rewrite Hp. Qed.

Lemma down_Returns (fuel : nat) (h : PriorityQueue) (i n : Z) :
  0 ≤ i → n ≤ len h → n - i < Z.of_nat fuel → (0 < fuel)%nat →
  ∃ h', down fuel h i n = Returns h' ∧ h' ≡ₚ h.
Proof.
  revert h i. induction fuel as [|fuel IH]; intros h i Hi Hn Hfuel Hpos; [lia|].
  simpl. destruct (Z.leb_spec n (2 * i + 1)); simpl; [by eauto|].
  destruct (Z.ltb_spec (2 * i + 1) 0); [lia|]. simpl.
  assert (∃ b, (if 2 * i + 1 + 1 <? n then Less h (2 * i + 1 + 1) (2 * i + 1)
                else mret false) = Returns b ∧
               (b = true → 2 * i + 1 + 1 < n)) as (b & -> & Hb).
  { destruct (Z.ltb_spec (2 * i + 1 + 1) n); [|by eexists].
    destruct (Less_Returns h (2 * i + 1 + 1) (2 * i + 1)) as [b ->]; [lia|lia|].
    by exists b. }
  simpl. set (j := if b then 2 * i + 1 + 1 else 2 * i + 1).
  assert (2 * i + 1 ≤ j < n) as Hj.
  { subst j. destruct b; [|lia]. specialize (Hb eq_refl). lia. }
  destruct (Less_Returns h j i) as [c ->]; [lia|lia|]. simpl.
  destruct c; simpl; [|by eauto].
  destruct (Swap_Returns h i j) as (h' & -> & Hp); [lia|lia|]. simpl.
  destruct (IH h' j) as (h'' & -> & Hp'); [lia| |lia|lia|].
  { by rewrite (len_Permutation _ _ Hp). }
  exists h''. split; [done|]. by rewrite Hp'.
Qed.

Lemma up_Returns (fuel : nat) (h : PriorityQueue) (j : Z) :
  0 ≤ j < len h → j < Z.of_nat fuel →
  ∃ h', up fuel h j = Returns h' ∧ h' ≡ₚ h.
Proof.
  revert h j. induction fuel as [|fuel IH]; intros h j Hj Hfuel; [lia|].
  simpl. destruct (Z.eqb_spec ((j - 1) ÷ 2) j) as [|Hne]; [by eauto|].
  assert (0 ≤ (j - 1) ÷ 2 < j) as Hi.
  { destruct (decide (j = 0)) as [->|]; [done|].
    split; [apply Z.quot_pos; lia|].
    apply Z.quot_lt_upper_bound; lia. }
  destruct (Less_Returns h j ((j - 1) ÷ 2)) as [c ->]; [lia|lia|]. simpl.
  destruct c; simpl; [|by eauto].
  destruct (Swap_Returns h ((j - 1) ÷ 2) j) as (h' & -> & Hp); [lia|lia|]. simpl.
  destruct (IH h' ((j - 1) ÷ 2)) as (h'' & -> & Hp'); [|lia|].
  { rewrite (len_Permutation _ _ Hp). lia. }
  exists h''. split; [done|]. by rewrite Hp'.
Qed.

Lemma heapify_Returns (k : nat) (h : PriorityQueue) (n : Z) :
  n ≤ len h → ∃ h', heapify k h n = Returns h' ∧ h' ≡ₚ h.
Proof.
  revert h. induction k as [|k IH]; intros h Hn; [by eexists|].
  cbn [heapify].
  destruct (down_Returns (S (length h)) h (Z.of_nat k) n) as (h' & -> & Hp);
    [lia|done|unfold len in Hn; lia|lia|]. rewrite bind_Returns.
  destruct (IH h') as (h'' & -> & Hp').
  { by rewrite (len_Permutation _ _ Hp). }
  exists h''. split; [done|]. by rewrite Hp'.
Qed.

Lemma heap_Init_Returns (h : PriorityQueue) :
  ∃ h', heap_Init h = Returns h' ∧ h' ≡ₚ h.
Proof. by apply heapify_Returns. Qed.

Lemma heap_Push_Returns (h : PriorityQueue) (x : HuffmanTree) :
  ∃ h', heap_Push h x = Returns h' ∧ h' ≡ₚ x :: h.
Proof.
  unfold heap_Push, Push.
  destruct (up_Returns (S (length (h ++ [x]))) (h ++ [x]) (len (h ++ [x]) - 1))
    as (h' & Hup & Hp).
  - unfold len. rewrite length_app. simpl. lia.
  - unfold len. lia.
  - exists h'. split; [exact Hup|]. rewrite Hp. by rewrite Permutation_app_comm.
Qed.

Lemma Pop_Returns (pq : PriorityQueue) :
  pq ≠ [] → ∃ x pq', Pop pq = Returns (x, pq') ∧ pq = pq' ++ [x].
Proof.
  intros Hne. unfold Pop.
  destruct (index_Returns pq (len pq - 1)) as (x & -> & Hx).
  { unfold len. destruct pq; [done|]. simpl. lia. }
  simpl. eexists _, _. split; [done|].
  replace (Z.to_nat (len pq - 1)) with (Init.Nat.pred (length pq)) in * by (unfold len; lia).
  rewrite <- (take_drop (Init.Nat.pred (length pq)) pq) at 1. f_equal.
  apply list_eq. intros [|i].
  - rewrite lookup_drop, Nat.add_0_r. done.
  - rewrite lookup_drop. simpl. rewrite lookup_ge_None_2; [done|lia].
Qed.

Lemma heap_Pop_Returns (h : PriorityQueue) :
  h ≠ [] → ∃ x h', heap_Pop h = Returns (x, h') ∧ x :: h' ≡ₚ h.
Proof.
  intros Hne. unfold heap_Pop.
  assert (0 < len h) as Hlen by (unfold len; destruct h; [done|simpl; lia]).
  destruct (Swap_Returns h 0 (len h - 1)) as (h1 & -> & Hp1); [lia|lia|].
  rewrite bind_Returns.
  destruct (down_Returns (S (length h1)) h1 0 (len h - 1)) as (h2 & -> & Hp2);
    [lia|rewrite (len_Permutation _ _ Hp1); lia
    |rewrite <- (len_Permutation _ _ Hp1); unfold len; lia|lia|].
  rewrite bind_Returns.
  destruct (Pop_Returns h2) as (x & h' & -> & Hh2).
  { intros ->. apply Permutation_length in Hp1, Hp2.
    destruct h; simpl in *; [done|lia]. }
  exists x, h'. split; [done|].
  rewrite <- Hp1, <- Hp2, Hh2. by rewrite Permutation_app_comm.
Qed.

Lemma heap_Pop_nil : heap_Pop [] = Panics.
Proof. reflexivity. Qed.

(** ** BuildTree returns a tree over the given leaves *)

Lemma queue_leaves_Permutation (pq pq' : PriorityQueue) :
  pq ≡ₚ pq' → queue_leaves pq ≡ₚ queue_leaves pq'.
Proof. intros Hp. unfold queue_leaves. by rewrite Hp. Qed.

Lemma queue_leaves_cons t pq : queue_leaves (t :: pq) = tree_leaves t ++ queue_leaves pq.
Proof. reflexivity. Qed.

Lemma queue_leaves_Leaf leaves : queue_leaves (Leaf <$> leaves) = leaves.
Proof. induction leaves as [|hl leaves IH]; [done|]. rewrite fmap_cons, queue_leaves_cons, IH. done. Qed.

Lemma BuildTree_loop_Returns (fuel : nat) (trees : PriorityQueue) :
  trees ≠ [] → (length trees ≤ fuel)%nat →
  ∃ t, BuildTree_loop fuel trees = Returns [t] ∧
       tree_leaves t ≡ₚ queue_leaves trees ∧
       (Forall built trees → built t) ∧
       (2 ≤ length trees → ∃ f v l r, t = Node f v l r)%nat.
Proof.
  revert trees. induction fuel as [|fuel IH]; intros trees Hne Hfuel.
  { destruct trees; [done|simpl in *; lia]. }
  simpl. destruct (Z.ltb_spec 1 (len trees)) as [Hlen|Hlen].
  - destruct (heap_Pop_Returns trees Hne) as (a & t1 & -> & Hp1). simpl.
    assert (t1 ≠ []) as Hne1.
    { intros ->. apply len_Permutation in Hp1. unfold len in *. simpl in *. lia. }
    destruct (heap_Pop_Returns t1 Hne1) as (b & t2 & -> & Hp2). simpl.
    destruct (heap_Push_Returns t2 (Node (int_add (Freq a) (Freq b)) 0 a b))
      as (t3 & -> & Hp3). simpl.
    assert (length trees = S (length t1)) as Hl1 by (by rewrite <- Hp1).
    assert (length t1 = S (length t2)) as Hl2 by (by rewrite <- Hp2).
    assert (length t3 = S (length t2)) as Hl3 by (by rewrite Hp3).
    destruct (IH t3) as (t & Hrun & Hleaves & Hbuilt & Hnode).
    { intros ->. done. }
    { lia. }
    exists t. split_and!; [done| | |].
    + rewrite Hleaves, (queue_leaves_Permutation _ _ Hp3).
      rewrite <- (queue_leaves_Permutation _ _ Hp1), !queue_leaves_cons.
      rewrite <- (queue_leaves_Permutation _ _ Hp2), !queue_leaves_cons.
      simpl. by rewrite <- app_assoc.
    + intros Hall. apply Hbuilt. rewrite Hp3.
      rewrite <- Hp1 in Hall. apply Forall_cons in Hall as [Ha Hall].
      rewrite <- Hp2 in Hall. apply Forall_cons in Hall as [Hb Hall].
      apply Forall_cons. split; [|done]. simpl. done.
    + intros _. destruct (decide (2 ≤ length t3)%nat) as [H3|H3]; [by apply Hnode|].
      assert (length t3 = 1%nat) as Hone by lia.
      destruct t3 as [|t' [|]]; simplify_eq/=.
      apply Permutation_singleton_l in Hp3.
      destruct fuel; [simpl in *; lia|]. simpl in Hrun.
      inversion Hrun; subst. inversion Hp3; subst. eauto.
  - destruct trees as [|t [|]]; [done| |unfold len in *; simpl in *; lia].
    exists t. split_and!; [done| | |].
    + unfold queue_leaves. simpl. by rewrite app_nil_r.
    + by intros [? _]%Forall_cons.
    + simpl. lia.
Qed.

Theorem BuildTree_Returns (leaves : list HuffmanLeaf) :
  leaves ≠ [] →
  ∃ t, BuildTree leaves = Returns t ∧ tree_leaves t ≡ₚ leaves ∧ built t ∧
       ((2 ≤ length leaves)%nat → ∃ f v l r, t = Node f v l r).
Proof.
  intros Hne. unfold BuildTree.
  destruct (heap_Init_Returns (Leaf <$> leaves)) as (h & -> & Hp).
  rewrite bind_Returns.
  assert (h ≠ []) as Hh.
  { intros ->. apply Permutation_length in Hp. rewrite length_fmap in Hp.
    by destruct leaves. }
  destruct (BuildTree_loop_Returns (S (length h)) h Hh) as (t & -> & Hl & Hb & Hn);
    [lia|]. rewrite bind_Returns.
  exists t. split_and!.
  - reflexivity.
  - by rewrite Hl, (queue_leaves_Permutation _ _ Hp), queue_leaves_Leaf.
  - apply Hb. rewrite Hp. apply Forall_fmap. by apply Forall_true.
  - intros Hlen. apply Hn. rewrite Hp, length_fmap. done.
Qed.

Lemma BuildTree_nil : BuildTree [] = Panics.
Proof. reflexivity. Qed.

(* --------------------------------------------------------------------- *)
(** * The code table                                                      *)
(* --------------------------------------------------------------------- *)

Lemma copy_visiting_cons {V} (kv : Z * V) kvs (dst : gmap Z V) :
  copy_visiting (kv :: kvs) dst = copy_visiting kvs (<[kv.1 := kv.2]> dst).
Proof. reflexivity. Qed.

Lemma copy_visiting_union {V} (kvs : list (Z * V)) (dst : gmap Z V) :
  NoDup kvs.*1 → copy_visiting kvs dst = list_to_map kvs ∪ dst.
Proof.
  revert dst. induction kvs as [|[k v] kvs IH]; intros dst Hnd.
  - unfold copy_visiting. simpl. by rewrite (left_id_L ∅ (∪)).
  - apply NoDup_cons in Hnd as [Hk Hnd].
    rewrite copy_visiting_cons, IH by done. simpl.
    rewrite <- insert_union_l. symmetry. apply insert_union_r.
    by apply not_elem_of_list_to_map_1.
Qed.

(** The copy loop gives the same map whatever the order of the range. *)
Lemma copy_visiting_any_order {V} (src dst : gmap Z V) (kvs : list (Z * V)) :
  range_order src kvs → copy_visiting kvs dst = copy_all src dst.
Proof.
  intros Hp. unfold copy_all, range_order in *.
  assert (NoDup kvs.*1) as Hnd by (rewrite Hp; apply NoDup_fst_map_to_list).
  rewrite !copy_visiting_union by (done || apply NoDup_fst_map_to_list).
  f_equal. by apply list_to_map_proper.
Qed.

Lemma copy_all_union {V} (src dst : gmap Z V) : copy_all src dst = src ∪ dst.
Proof.
  unfold copy_all. rewrite copy_visiting_union by apply NoDup_fst_map_to_list.
  by rewrite list_to_map_to_list.
Qed.

Lemma buildEncoding_Node f v l r prefix :
  buildEncoding (Node f v l r) prefix
  = buildEncoding r (prefix ++ [bit1]) ∪ buildEncoding l (prefix ++ [bit0]).
Proof. simpl. rewrite !copy_all_union. by rewrite (right_id_L ∅ (∪)). Qed.

Lemma buildEncoding_lookup t prefix x c :
  buildEncoding t prefix !! x = Some c →
  ∃ path, c = prefix ++ path ∧ code_of t path x.
Proof.
  revert prefix. induction t as [hl|f v l IHl r IHr]; intros prefix.
  - simpl. intros [[<- <-]|[_ Hempty]]%lookup_insert_Some;
      [|by rewrite lookup_empty in Hempty].
    exists []. split; [by rewrite app_nil_r | constructor].
  - rewrite buildEncoding_Node. intros [Hr|[_ Hl]]%lookup_union_Some_raw.
    + destruct (IHr _ Hr) as (path & -> & Hcode).
      exists (bit1 :: path). split; [by rewrite <- app_assoc | by constructor].
    + destruct (IHl _ Hl) as (path & -> & Hcode).
      exists (bit0 :: path). split; [by rewrite <- app_assoc | by constructor].
Qed.

Lemma buildEncoding_is_Some t prefix x :
  x ∈ Value <$> tree_leaves t → is_Some (buildEncoding t prefix !! x).
Proof.
  revert prefix. induction t as [hl|f v l IHl r IHr]; intros prefix.
  - simpl. intros ->%list_elem_of_singleton. by rewrite lookup_insert_eq.
  - rewrite buildEncoding_Node. simpl. rewrite fmap_app, elem_of_app.
    rewrite lookup_union_is_Some. intros [?|?]; [right|left]; eauto.
Qed.

Lemma code_of_elem_of t path x : code_of t path x → x ∈ Value <$> tree_leaves t.
Proof.
  induction 1; simpl; rewrite ?fmap_app, ?elem_of_app; auto.
  apply list_elem_of_singleton. done.
Qed.

(** Two paths to leaves of one tree: if one is a prefix of the other, they
    are the same path to the same leaf. *)
Lemma code_of_prefix t p1 p2 x y :
  code_of t p1 x → code_of t p2 y → p1 `prefix_of` p2 → x = y ∧ p1 = p2.
Proof.
  intros H1. revert p2 y.
  induction H1 as [hl|f v l r p1 x H1 IH|f v l r p1 x H1 IH];
    intros p2 y H2 Hpre; inversion H2; subst;
    try done; try (by apply prefix_cons_inv_1 in Hpre);
    apply prefix_cons_inv_2 in Hpre;
    match goal with
    | Hc : code_of _ _ y |- _ => by destruct (IH _ _ Hc Hpre) as [-> ->]
    end.
Qed.

Lemma code_of_bits t path x : code_of t path x → Forall (λ b, b = bit0 ∨ b = bit1) path.
Proof. induction 1; constructor; auto. Qed.

Lemma bits_is_string path : Forall (λ b, b = bit0 ∨ b = bit1) path → is_string path.
Proof. intros Hb. eapply Forall_impl; [exact Hb|]. by intros b [-> | ->]. Qed.

Lemma sanitize_string s : is_string s → sanitize <$> s = s.
Proof.
  induction 1 as [|r s Hr _ IH]; [done|]. by rewrite fmap_cons, IH, sanitize_valid.
Qed.

Lemma code_of_Node_nonempty f v l r path x : code_of (Node f v l r) path x → path ≠ [].
Proof. by inversion 1. Qed.

Theorem buildEncoding_prefix_free t : prefix_free (buildEncoding t []).
Proof.
  intros x y cx cy Hx Hy Hne Hpre.
  apply buildEncoding_lookup in Hx as (px & -> & Hx).
  apply buildEncoding_lookup in Hy as (py & -> & Hy).
  simpl in Hpre. by destruct (code_of_prefix _ _ _ _ _ Hx Hy Hpre).
Qed.

(* --------------------------------------------------------------------- *)
(** * The frequency table                                                 *)
(* --------------------------------------------------------------------- *)

Lemma wrap64_small z : MinInt ≤ z ≤ MaxInt → wrap64 z = z.
Proof.
  unfold wrap64, MinInt, MaxInt. intros Hz.
  rewrite Z.mod_small by lia. lia.
Qed.

Lemma sumZ_Permutation l1 l2 : l1 ≡ₚ l2 → sumZ l1 = sumZ l2.
Proof. induction 1; simpl; lia. Qed.

Lemma sumZ_app l1 l2 : sumZ (l1 ++ l2) = sumZ l1 + sumZ l2.
Proof. induction l1; simpl; lia. Qed.

Lemma sumZ_nonneg l : Forall (λ z, 0 ≤ z) l → 0 ≤ sumZ l.
Proof. induction 1; simpl; lia. Qed.

Lemma map_sum_insert m c v : m !! c = None → map_sum (<[c := v]> m) = v + map_sum m.
Proof.
  intros Hc. unfold map_sum.
  by rewrite (sumZ_Permutation _ _ (fmap_Permutation snd _ _ (map_to_list_insert m c v Hc))).
Qed.

Lemma map_sum_lookup m c v : m !! c = Some v → map_sum m = v + map_sum (delete c m).
Proof.
  intros Hc. rewrite <- (insert_delete_id m c v Hc) at 1.
  apply map_sum_insert, lookup_delete_eq.
Qed.

Lemma map_sum_nonneg m : map_Forall (λ _ v, 1 ≤ v) m → 0 ≤ map_sum m.
Proof.
  intros Hm. apply sumZ_nonneg, Forall_fmap, Forall_forall.
  intros [k v] Hkv%elem_of_map_to_list. apply Hm in Hkv. simpl in *. lia.
Qed.

Lemma count_rune_sum m c :
  map_Forall (λ _ v, 1 ≤ v) m → map_sum m < MaxInt →
  map_Forall (λ _ v, 1 ≤ v) (count_rune m c) ∧
  map_sum (count_rune m c) = map_sum m + 1.
Proof.
  intros Hm Hsum. unfold count_rune, int_add.
  destruct (m !! c) as [v|] eqn:Hc; simpl.
  - pose proof (Hm _ _ Hc) as Hv. simpl in Hv.
    pose proof (map_sum_lookup _ _ _ Hc) as Hs.
    assert (0 ≤ map_sum (delete c m)) as Hd.
    { apply map_sum_nonneg. by apply map_Forall_delete. }
    rewrite wrap64_small by (unfold MinInt, MaxInt in *; lia). split.
    + apply map_Forall_insert_2; [lia|done].
    + rewrite <- insert_delete_eq, map_sum_insert by apply lookup_delete_eq. lia.
  - rewrite wrap64_small by (unfold MinInt, MaxInt; lia). split.
    + apply map_Forall_insert_2; [lia|done].
    + rewrite map_sum_insert by done. lia.
Qed.

Lemma foldl_count_rune_sum s m :
  map_Forall (λ _ v, 1 ≤ v) m → map_sum m + len s ≤ MaxInt →
  map_Forall (λ _ v, 1 ≤ v) (foldl count_rune m s) ∧
  map_sum (foldl count_rune m s) = map_sum m + len s.
Proof.
  revert m. induction s as [|c s IH]; intros m Hm Hsum.
  - unfold len. simpl. split; [done|lia].
  - unfold len in *. simpl in *.
    destruct (count_rune_sum m c Hm) as [Hm' Hs']; [lia|].
    destruct (IH _ Hm') as [Hm'' Hs'']; [lia|]. split; [done|lia].
Qed.

Lemma foldl_count_rune_dom s m x :
  is_Some (foldl count_rune m s !! x) ↔ x ∈ s ∨ is_Some (m !! x).
Proof.
  revert m. induction s as [|c s IH]; intros m; simpl.
  - rewrite elem_of_nil. tauto.
  - rewrite IH, elem_of_cons. unfold count_rune.
    rewrite lookup_insert_is_Some. destruct (decide (c = x)); intuition congruence.
Qed.

Lemma frequencies_dom s x : is_Some (frequencies s !! x) ↔ x ∈ s.
Proof.
  unfold frequencies. rewrite foldl_count_rune_dom, lookup_empty.
  rewrite is_Some_alt. tauto.
Qed.

Lemma frequencies_sum s :
  len s ≤ MaxInt →
  map_Forall (λ _ v, 1 ≤ v) (frequencies s) ∧ map_sum (frequencies s) = len s.
Proof.
  intros Hlen. destruct (foldl_count_rune_sum s ∅) as [Hm Hs].
  - apply map_Forall_empty.
  - unfold map_sum. rewrite map_to_list_empty. simpl. lia.
  - split; [done|]. unfold frequencies. rewrite Hs.
    unfold map_sum. rewrite map_to_list_empty. simpl. lia.
Qed.

Lemma BuildFrequencyTable_Value kvs : Value <$> BuildFrequencyTable_visiting kvs = kvs.*1.
Proof. unfold BuildFrequencyTable_visiting. rewrite <- list_fmap_compose. done. Qed.

Lemma BuildFrequencyTable_Frequency kvs :
  Frequency <$> BuildFrequencyTable_visiting kvs = kvs.*2.
Proof. unfold BuildFrequencyTable_visiting. rewrite <- list_fmap_compose. done. Qed.

(** One leaf per distinct symbol of the string. *)
Lemma BuildFrequencyTable_symbols s leaves :
  BuildFrequencyTable s leaves →
  NoDup (Value <$> leaves) ∧ (∀ x, x ∈ Value <$> leaves ↔ x ∈ s).
Proof.
  intros (kvs & Hp & ->). unfold range_order in Hp.
  rewrite BuildFrequencyTable_Value. split.
  { rewrite Hp. apply NoDup_fst_map_to_list. }
  intros x. rewrite <- (frequencies_dom s), list_elem_of_fmap. split.
  - intros ([k v] & -> & Hkv). rewrite Hp in Hkv.
    apply elem_of_map_to_list in Hkv. by eexists.
  - intros [v Hv]. exists (x, v). split; [done|].
    rewrite Hp. by apply elem_of_map_to_list.
Qed.

Lemma BuildFrequencyTable_counts s leaves :
  len s ≤ MaxInt → BuildFrequencyTable s leaves →
  Forall (λ hl, 1 ≤ Frequency hl) leaves ∧ sumZ (Frequency <$> leaves) = len s.
Proof.
  intros Hlen (kvs & Hp & ->). unfold range_order in Hp.
  destruct (frequencies_sum s Hlen) as [Hm Hs]. split.
  - unfold BuildFrequencyTable_visiting. apply Forall_fmap, Forall_forall.
    intros [k v] Hkv. simpl. rewrite Hp in Hkv.
    apply elem_of_map_to_list in Hkv. by apply Hm in Hkv.
  - rewrite BuildFrequencyTable_Frequency, <- Hs. unfold map_sum.
    apply sumZ_Permutation. by rewrite Hp.
Qed.

(** ** The frequency of the root *)

Lemma built_Freq t :
  built t → Forall (λ hl, 0 ≤ Frequency hl) (tree_leaves t) →
  sumZ (Frequency <$> tree_leaves t) ≤ MaxInt →
  Freq t = sumZ (Frequency <$> tree_leaves t).
Proof.
  induction t as [hl|f v l IHl r IHr]; simpl.
  - intros _ _ _. lia.
  - intros (-> & _ & Hl & Hr) [Hnl Hnr]%Forall_app.
    rewrite fmap_app, sumZ_app. intros Hsum.
    assert (0 ≤ sumZ (Frequency <$> tree_leaves l)) by (by apply sumZ_nonneg, Forall_fmap).
    assert (0 ≤ sumZ (Frequency <$> tree_leaves r)) by (by apply sumZ_nonneg, Forall_fmap).
    rewrite IHl, IHr by (done || lia).
    unfold int_add. apply wrap64_small. unfold MinInt, MaxInt in *. lia.
Qed.

(* --------------------------------------------------------------------- *)
(** * Decoding what was encoded                                           *)
(* --------------------------------------------------------------------- *)

Lemma reverseMap_visiting_snoc kvs kv :
  reverseMap_visiting (kvs ++ [kv]) = <[kv.2 := kv.1]> (reverseMap_visiting kvs).
Proof. unfold reverseMap_visiting. by rewrite foldl_snoc. Qed.

Lemma reverseMap_visiting_lookup kvs c x :
  reverseMap_visiting kvs !! c = Some x → (x, c) ∈ kvs.
Proof.
  induction kvs as [|[k v] kvs IH] using rev_ind.
  { unfold reverseMap_visiting. simpl. by rewrite lookup_empty. }
  rewrite reverseMap_visiting_snoc, elem_of_app, list_elem_of_singleton. simpl.
  intros [[<- <-]|[_ Hc]]%lookup_insert_Some; auto.
Qed.

Lemma reverseMap_visiting_is_Some kvs c x :
  (x, c) ∈ kvs → is_Some (reverseMap_visiting kvs !! c).
Proof.
  induction kvs as [|[k v] kvs IH] using rev_ind; [by intros ?%elem_of_nil|].
  rewrite reverseMap_visiting_snoc, elem_of_app, list_elem_of_singleton. simpl.
  rewrite lookup_insert_is_Some. destruct (decide (v = c)); [by left|].
  intros [Hin|?]; [|congruence]. right. auto.
Qed.

Section Decode.
Variable encoding : gmap Z (list rune).
Variable kvs : list (Z * list rune).
Hypothesis Horder : range_order encoding kvs.
Hypothesis Hfree : prefix_free encoding.
Hypothesis Hnonempty : ∀ x c, encoding !! x = Some c → c ≠ [].
Hypothesis Hstring : ∀ x c, encoding !! x = Some c → is_string c.

Lemma elem_of_range_order x c : (x, c) ∈ kvs ↔ encoding !! x = Some c.
Proof. unfold range_order in Horder. by rewrite Horder, elem_of_map_to_list. Qed.

(** A code is the code of one symbol, and the reversed table finds it. *)
Lemma reversed_code x c :
  encoding !! x = Some c → reverseMap_visiting kvs !! c = Some x.
Proof.
  intros Hx.
  destruct (reverseMap_visiting_is_Some kvs c x) as [y Hy];
    [by apply elem_of_range_order|].
  rewrite Hy. f_equal.
  apply reverseMap_visiting_lookup, elem_of_range_order in Hy.
  destruct (decide (y = x)) as [|Hne]; [done|].
  by destruct (Hfree y x c c Hy Hx Hne).
Qed.

(** The reversed table has no entry for a proper prefix of a code. *)
Lemma reversed_proper_prefix x c q :
  encoding !! x = Some c → q `prefix_of` c → q ≠ c →
  reverseMap_visiting kvs !! q = None.
Proof.
  intros Hx Hpre Hqc.
  destruct (reverseMap_visiting kvs !! q) as [y|] eqn:Hy; [|done].
  apply reverseMap_visiting_lookup, elem_of_range_order in Hy.
  destruct (decide (y = x)) as [->|Hne]; [congruence|].
  by destruct (Hfree y x q c Hy Hx Hne).
Qed.

(** Reading the rest [q2] of a code with its beginning [q1] in the buffer
    emits the symbol and empties the buffer. *)
Lemma decode_code_from x c decoded q1 q2 :
  encoding !! x = Some c → valid_rune x = true →
  c = q1 ++ q2 → q2 ≠ [] →
  foldl (decode_step (reverseMap_visiting kvs)) (decoded, q1) q2
  = (decoded ++ [x], []).
Proof.
  intros Hx Hvx. revert q1.
  induction q2 as [|b q2 IH]; intros q1 Hc Hne; [done|clear Hne].
  assert (valid_rune b = true) as Hb.
  { pose proof (Hstring _ _ Hx) as Hs. rewrite Hc in Hs.
    apply is_string_app in Hs as [_ Hs]. by apply Forall_cons in Hs as [? _]. }
  simpl. rewrite (WriteRune_valid q1 b Hb).
  destruct q2 as [|b' q2].
  - rewrite <- Hc, (reversed_code _ _ Hx). simpl. by rewrite WriteRune_valid.
  - rewrite (reversed_proper_prefix x c).
    + apply IH; [by rewrite <- app_assoc | done].
    + done.
    + exists (b' :: q2). by rewrite <- app_assoc.
    + rewrite Hc. intros Heq. apply (f_equal length) in Heq.
      rewrite !length_app in Heq. simpl in Heq. lia.
Qed.

Lemma applyHuffmanEncoding_snoc s c :
  applyHuffmanEncoding (s ++ [c]) encoding
  = applyHuffmanEncoding s encoding ++ default [] (encoding !! c).
Proof. unfold applyHuffmanEncoding. by rewrite foldl_snoc. Qed.

Lemma decode_loop_encoding s :
  is_string s → (∀ x, x ∈ s → is_Some (encoding !! x)) →
  decode_loop (reverseMap_visiting kvs) (applyHuffmanEncoding s encoding) = (s, []).
Proof.
  induction s as [|x s IH] using rev_ind; [done|].
  intros [Hs Hx]%is_string_app Hdom.
  unfold is_string in Hx; rewrite Forall_singleton in Hx.
  destruct (Hdom x) as [c Hc]; [set_solver|].
  rewrite applyHuffmanEncoding_snoc, Hc. simpl.
  unfold decode_loop in *. rewrite foldl_app, IH; [|done|set_solver].
  apply (decode_code_from x c); eauto.
Qed.
End Decode.

(* --------------------------------------------------------------------- *)
(** * The Huffman pipeline                                                *)
(* --------------------------------------------------------------------- *)

Lemma two_elements {A} (l : list A) (x y : A) :
  x ∈ l → y ∈ l → x ≠ y → (2 ≤ length l)%nat.
Proof.
  intros Hx Hy Hne. destruct l as [|a [|b l]]; simpl; [| |lia].
  - by apply elem_of_nil in Hx.
  - apply list_elem_of_singleton in Hx, Hy. congruence.
Qed.

Lemma buildEncoding_dom t prefix x :
  is_Some (buildEncoding t prefix !! x) ↔ x ∈ Value <$> tree_leaves t.
Proof.
  split; [|apply buildEncoding_is_Some].
  intros [c (path & _ & Hcode)%buildEncoding_lookup].
  by eapply code_of_elem_of.
Qed.

(** C2: the tree that [BuildTree] returns for two or more leaves with
    distinct symbols gives a table with one code per symbol in which the
    codes of two distinct symbols differ and neither is a prefix of the
    other. *)
Theorem BuildTree_prefix_free (leaves : list HuffmanLeaf) :
  (2 ≤ length leaves)%nat → NoDup (Value <$> leaves) →
  ∃ t, BuildTree leaves = Returns t ∧
    (∀ x, is_Some (buildEncoding t [] !! x) ↔ x ∈ Value <$> leaves) ∧
    (∀ x y c1 c2,
       buildEncoding t [] !! x = Some c1 → buildEncoding t [] !! y = Some c2 →
       x ≠ y → c1 ≠ c2 ∧ ¬ c1 `prefix_of` c2 ∧ ¬ c2 `prefix_of` c1).
Proof.
  intros Hlen _.
  destruct (BuildTree_Returns leaves) as (t & Ht & Hleaves & _ & _).
  { intros ->. simpl in Hlen. lia. }
  exists t. split_and!; [done| |].
  - intros x. by rewrite buildEncoding_dom, Hleaves.
  - intros x y c1 c2 Hx Hy Hne.
    pose proof (buildEncoding_prefix_free t) as Hfree. split_and!.
    + intros ->. by apply (Hfree x y c2 c2).
    + by apply (Hfree x y).
    + by apply (Hfree y x).
Qed.

(** On the symbols: for a sequence of symbols with two distinct ones or
    more, whatever the order in which the maps are ranged over,
    [BuildTree] returns a tree for the frequency table, and decoding the
    encoding with the table of that tree gives the symbols back. *)
Lemma huffman_round_trip_symbols (s : list rune) (leaves : list HuffmanLeaf) :
  is_string s → (∃ x y, x ∈ s ∧ y ∈ s ∧ x ≠ y) →
  BuildFrequencyTable s leaves →
  ∃ t, BuildTree leaves = Returns t ∧
    applyHuffmanDecoding (applyHuffmanEncoding s (buildEncoding t [])) (buildEncoding t []) s ∧
    (∀ decoded,
       applyHuffmanDecoding (applyHuffmanEncoding s (buildEncoding t [])) (buildEncoding t []) decoded →
       decoded = s).
Proof.
  intros Hs (x & y & Hx & Hy & Hxy) Htable.
  destruct (BuildFrequencyTable_symbols s leaves Htable) as [_ Hsym].
  assert (2 ≤ length leaves)%nat as Hlen.
  { rewrite <- (length_fmap Value). apply (two_elements _ x y); [by apply Hsym..|done]. }
  destruct (BuildTree_Returns leaves) as (t & Ht & Hleaves & _ & Hnode).
  { intros ->. simpl in Hlen. lia. }
  destruct (Hnode Hlen) as (f & v & l & r & Hroot).
  exists t. split; [done|].
  assert (∀ kvs, range_order (buildEncoding t []) kvs →
            applyHuffmanDecoding_visiting kvs (applyHuffmanEncoding s (buildEncoding t [])) = s)
    as Hdecode.
  { intros kvs Horder. unfold applyHuffmanDecoding_visiting.
    rewrite (decode_loop_encoding (buildEncoding t []) kvs); [done|done|..|done|].
    - apply buildEncoding_prefix_free.
    - intros z c (path & -> & Hcode)%buildEncoding_lookup. subst t.
      by apply code_of_Node_nonempty in Hcode.
    - intros z c (path & -> & Hcode)%buildEncoding_lookup.
      simpl. by apply code_of_bits, bits_is_string in Hcode.
    - intros z Hz. apply buildEncoding_dom. rewrite Hleaves. by apply Hsym. }
  split.
  - exists (map_to_list (buildEncoding t [])).
    split; [apply range_order_map_to_list|]. symmetry. apply Hdecode, range_order_map_to_list.
  - intros decoded (kvs & Horder & ->). by apply Hdecode.
Qed.

(** C1, as amended: for a string that is valid UTF-8 and has two distinct
    symbols or more, whatever the order in which the maps are ranged over,
    [BuildTree] returns a tree for the frequency table of the string, the
    decoder returns on the encoding of the string under the table of that
    tree, and the string it returns is the input, byte for byte. *)
Theorem huffman_round_trip (s : list byte) (leaves : list HuffmanLeaf) :
  valid_utf8 s →
  (∃ x y, x ∈ range_string s ∧ y ∈ range_string s ∧ x ≠ y) →
  BuildFrequencyTable (range_string s) leaves →
  ∃ t, BuildTree leaves = Returns t ∧
    (∃ decoded,
       applyHuffmanDecoding
         (applyHuffmanEncoding (range_string s) (buildEncoding t []))
         (buildEncoding t []) decoded) ∧
    (∀ decoded,
       applyHuffmanDecoding
         (applyHuffmanEncoding (range_string s) (buildEncoding t []))
         (buildEncoding t []) decoded →
       Builder_String decoded = s).
Proof.
  intros Hv Htwo Htable.
  destruct (huffman_round_trip_symbols (range_string s) leaves)
    as (t & Ht & Hrun & Hall); [apply range_string_is_string|done..|].
  exists t. split_and!; [done|by eexists|].
  intros decoded ->%Hall. by apply valid_utf8_iff.
Qed.

(** C9: the counts of the frequency table add up to the number of symbols
    of the string (a Go string has at most [MaxInt] of them), there is one
    leaf per distinct symbol, and the root of the tree that [BuildTree]
    returns for a non-empty table has that sum as its frequency. *)
Theorem frequency_conservation (s : list rune) (leaves : list HuffmanLeaf) :
  len s ≤ MaxInt → BuildFrequencyTable s leaves →
  sumZ (Frequency <$> leaves) = len s ∧
  NoDup (Value <$> leaves) ∧ (∀ x, x ∈ Value <$> leaves ↔ x ∈ s) ∧
  (leaves ≠ [] → ∃ t, BuildTree leaves = Returns t ∧ Freq t = len s).
Proof.
  intros Hlen Htable.
  destruct (BuildFrequencyTable_symbols s leaves Htable) as [Hnd Hsym].
  destruct (BuildFrequencyTable_counts s leaves Hlen Htable) as [Hpos Hsum].
  split_and!; [done..|].
  intros Hne.
  destruct (BuildTree_Returns leaves Hne) as (t & Ht & Hleaves & Hbuilt & _).
  exists t. split; [done|].
  assert (sumZ (Frequency <$> tree_leaves t) = len s) as Hsum'.
  { rewrite <- Hsum. apply sumZ_Permutation. by rewrite Hleaves. }
  rewrite built_Freq; [done|done| |lia].
  rewrite Hleaves. eapply Forall_impl; [exact Hpos|]. simpl. lia.
Qed.

(** ** The pipeline on "abracadabra" and on "aaaa" *)

Lemma BuildFrequencyTable_abracadabra : BuildFrequencyTable abracadabra abracadabra_leaves.
Proof.
  exists (map_to_list (frequencies abracadabra)).
  split; [apply range_order_map_to_list | by vm_compute].
Qed.

(** C2 on the frequency table of "abracadabra". *)
Lemma BuildTree_prefix_free_witness :
  ∃ t, BuildTree abracadabra_leaves = Returns t ∧
    (∀ x, is_Some (buildEncoding t [] !! x) ↔ x ∈ Value <$> abracadabra_leaves) ∧
    (∀ x y c1 c2,
       buildEncoding t [] !! x = Some c1 → buildEncoding t [] !! y = Some c2 →
       x ≠ y → c1 ≠ c2 ∧ ¬ c1 `prefix_of` c2 ∧ ¬ c2 `prefix_of` c1).
Proof.
  apply BuildTree_prefix_free.
  - simpl. lia.
  - by apply (bool_decide_unpack _).
Defined.

Lemma range_string_abracadabra : range_string abracadabra_bytes = abracadabra.
Proof. reflexivity. Qed.

(** C1 on "abracadabra". *)
Lemma huffman_round_trip_witness :
  ∃ t, BuildTree abracadabra_leaves = Returns t ∧
    (∃ decoded,
       applyHuffmanDecoding
         (applyHuffmanEncoding (range_string abracadabra_bytes) (buildEncoding t []))
         (buildEncoding t []) decoded) ∧
    (∀ decoded,
       applyHuffmanDecoding
         (applyHuffmanEncoding (range_string abracadabra_bytes) (buildEncoding t []))
         (buildEncoding t []) decoded →
       Builder_String decoded = abracadabra_bytes).
Proof.
  apply huffman_round_trip; rewrite ?range_string_abracadabra.
  - exists abracadabra. split; [repeat constructor|reflexivity].
  - exists 97, 98. split_and!; [set_solver | set_solver | done].
  - apply BuildFrequencyTable_abracadabra.
Defined.

(** C1 fails on "a\xffa", which is not UTF-8.  The range yields 'a',
    U+FFFD, 'a': two distinct symbols.  Whatever the order in which the
    maps are ranged over, the tree is built and the decoder returns the
    five bytes of "a\uFFFDa", not the three bytes of the input. *)
Lemma huffman_round_trip_counterexample :
  ¬ valid_utf8 a_ff_a ∧ range_string a_ff_a = [97; RuneError; 97] ∧
  (∃ leaves, BuildFrequencyTable (range_string a_ff_a) leaves) ∧
  (∀ leaves, BuildFrequencyTable (range_string a_ff_a) leaves →
     ∃ t, BuildTree leaves = Returns t ∧
       (∃ decoded,
          applyHuffmanDecoding
            (applyHuffmanEncoding (range_string a_ff_a) (buildEncoding t []))
            (buildEncoding t []) decoded) ∧
       (∀ decoded,
          applyHuffmanDecoding
            (applyHuffmanEncoding (range_string a_ff_a) (buildEncoding t []))
            (buildEncoding t []) decoded →
          Builder_String decoded = [x61; xef; xbf; xbd; x61])) ∧
  [x61; xef; xbf; xbd; x61] ≠ a_ff_a.
Proof.
  assert (range_string a_ff_a = [97; RuneError; 97]) as Hrange by reflexivity.
  rewrite Hrange. split_and!; [|done| | |done].
  - by intros Hv%valid_utf8_iff.
  - eexists. eexists. split; [apply range_order_map_to_list|done].
  - intros leaves Htable.
    destruct (huffman_round_trip_symbols [97; RuneError; 97] leaves)
      as (t & Ht & Hrun & Hall); [repeat constructor| |done|].
    { exists 97, RuneError. split_and!; [set_solver | set_solver | done]. }
    exists t. split_and!; [done|by eexists|].
    by intros decoded ->%Hall.
Qed.

(** C9 on "abracadabra". *)
Lemma frequency_conservation_witness :
  sumZ (Frequency <$> abracadabra_leaves) = len abracadabra ∧
  NoDup (Value <$> abracadabra_leaves) ∧
  (∀ x, x ∈ Value <$> abracadabra_leaves ↔ x ∈ abracadabra) ∧
  (abracadabra_leaves ≠ [] →
   ∃ t, BuildTree abracadabra_leaves = Returns t ∧ Freq t = len abracadabra).
Proof.
  apply frequency_conservation.
  - by vm_compute.
  - apply BuildFrequencyTable_abracadabra.
Defined.

(** The scenario of the specification: the five-leaf tree for
    "abracadabra", the depths of its leaves, and the round trip. *)
Example abracadabra_scenario :
  BuildTree abracadabra_leaves
  = Returns
      (Node 11 0 (Leaf {| Frequency := 5; Value := 97; Char := [97] |})
         (Node 6 0 (Leaf {| Frequency := 2; Value := 114; Char := [114] |})
            (Node 4 0 (Leaf {| Frequency := 2; Value := 98; Char := [98] |})
               (Node 2 0 (Leaf {| Frequency := 1; Value := 99; Char := [99] |})
                         (Leaf {| Frequency := 1; Value := 100; Char := [100] |}))))).
Proof. by vm_compute. Qed.

(** C7, on the code: for "aaaa" [BuildTree] returns the single leaf and
    [buildEncoding] the table a ↦ "" without failure, but the encoding of
    "aaaa" is the empty stream and decoding it gives "", not "aaaa". *)
Lemma aaaa_not_reproduced :
  BuildFrequencyTable aaaa [aaaa_leaf] ∧
  BuildTree [aaaa_leaf] = Returns (Leaf aaaa_leaf) ∧
  buildEncoding (Leaf aaaa_leaf) [] = <[97 := []]> ∅ ∧
  applyHuffmanEncoding aaaa (<[97 := []]> ∅) = [] ∧
  applyHuffmanDecoding (applyHuffmanEncoding aaaa (<[97 := []]> ∅)) (<[97 := []]> ∅) [] ∧
  [] ≠ aaaa.
Proof.
  split_and!; try done.
  - exists (map_to_list (frequencies aaaa)).
    split; [apply range_order_map_to_list | by vm_compute].
  - exists (map_to_list (<[97 := []]> ∅ : gmap Z (list rune))).
    split; [apply range_order_map_to_list | by vm_compute].
Qed.

(** Every run of the decoder on the encoding of "aaaa" gives "". *)
Lemma aaaa_decodes_to_nothing (table : gmap Z (list rune)) (decoded : list rune) :
  applyHuffmanDecoding [] table decoded → decoded = [].
Proof. by intros (kvs & _ & ->). Qed.

(* --------------------------------------------------------------------- *)
(** * LZ77: the longest match                                             *)
(* --------------------------------------------------------------------- *)

Lemma match_loop_Returns (fuel : nat) (data : list byte) (i current l : Z) :
  0 ≤ i → match_ok data i current l →
  len data - (i + l) < Z.of_nat fuel → (0 < fuel)%nat →
  ∃ l', match_loop fuel data i current l = Returns l' ∧ match_ok data i current l'.
Proof.
  intros Hi. revert l. induction fuel as [|fuel IH]; intros l Hok Hfuel Hpos; [lia|].
  simpl.
  destruct (Z.ltb_spec l (current - i)); simpl; [|by eauto].
  destruct (Z.ltb_spec (i + l) (len data)); simpl; [|by eauto].
  destruct (Z.ltb_spec (current + l) (len data)); simpl; [|by eauto].
  destruct Hok as (Hl & Hm & Hb).
  destruct (index_Returns data (i + l)) as (a & -> & Ha); [lia|].
  destruct (index_Returns data (current + l)) as (b & -> & Hb'); [lia|].
  simpl. destruct (Byte.eqb a b) eqn:Heq; [|by eexists; split; [done|split_and!]].
  apply byte_dec_bl in Heq as ->.
  apply IH; [|lia|lia].
  split_and!; [lia| |right; lia].
  intros k Hk. destruct (decide (k = l)) as [->|]; [by eauto|].
  apply Hm. lia.
Qed.

Lemma match_at_Returns (data : list byte) (i current : Z) :
  0 ≤ i → ∃ l, match_at data i current = Returns l ∧ match_ok data i current l.
Proof.
  intros Hi. apply match_loop_Returns; [done| |unfold len; lia|lia].
  split_and!; [done| |by left]. intros k Hk. lia.
Qed.

Lemma longestMatch_step_Returns data current length distance i l :
  match_at data i current = Returns l →
  longestMatch_step data current (Returns (length, distance)) i
  = Returns (if length <? l then (l, current - i) else (length, distance)).
Proof.
  intros Hl. unfold longestMatch_step. rewrite bind_Returns, Hl, bind_Returns.
  by destruct (length <? l).
Qed.

(** The outer loop keeps the first candidate that reaches the greatest
    length: a later candidate replaces it only when strictly longer. *)
Lemma longestMatch_fold (data : list byte) (current : Z) (cs : list Z)
    (length0 distance0 : Z) :
  Forall (λ i, 0 ≤ i) cs →
  ∃ length distance,
    foldl (longestMatch_step data current) (Returns (length0, distance0)) cs
    = Returns (length, distance) ∧
    (∀ i l, i ∈ cs → match_at data i current = Returns l → l ≤ length) ∧
    ((length = length0 ∧ distance = distance0) ∨
     (length0 < length ∧
      ∃ cs1 i0 cs2, cs = cs1 ++ i0 :: cs2 ∧
        match_at data i0 current = Returns length ∧ distance = current - i0 ∧
        ∀ i l, i ∈ cs1 → match_at data i current = Returns l → l < length)).
Proof.
  revert length0 distance0.
  induction cs as [|i cs IH]; intros length0 distance0 Hcs.
  { exists length0, distance0. split_and!; [done| |by left].
    by intros i l ?%elem_of_nil. }
  apply Forall_cons in Hcs as [Hi Hcs].
  destruct (match_at_Returns data i current Hi) as (li & Hli & _).
  cbn [foldl]. rewrite (longestMatch_step_Returns _ _ _ _ _ _ Hli).
  destruct (Z.ltb_spec length0 li) as [Hlt|Hge].
  - destruct (IH li (current - i) Hcs) as (length & distance & -> & Hmax & Hcase).
    exists length, distance. split; [done|].
    assert (li ≤ length) as Hle by (destruct Hcase as [[-> _]|[? _]]; lia).
    split.
    + intros j l [->|Hj]%elem_of_cons Hl; [|by eapply Hmax]. congruence.
    + right. split; [lia|].
      destruct Hcase as [[-> ->]|(Hlt' & cs1 & i0 & cs2 & -> & Hi0 & -> & Hfirst)].
      * exists [], i, cs. split_and!; [done..|]. by intros j l ?%elem_of_nil.
      * exists (i :: cs1), i0, cs2. split_and!; [done..|].
        intros j l [->|Hj]%elem_of_cons Hl; [|by eapply Hfirst]. 
        assert (l = li) by congruence. lia.
  - destruct (IH length0 distance0 Hcs) as (length & distance & -> & Hmax & Hcase).
    exists length, distance. split; [done|].
    assert (length0 ≤ length) as Hle by (destruct Hcase as [[-> _]|[? _]]; lia).
    split.
    + intros j l [->|Hj]%elem_of_cons Hl; [|by eapply Hmax].
      assert (l = li) by congruence. lia.
    + destruct Hcase as [[-> ->]|(Hlt' & cs1 & i0 & cs2 & -> & Hi0 & -> & Hfirst)];
        [by left|right].
      split; [done|]. exists (i :: cs1), i0, cs2. split_and!; [done..|].
      intros j l [->|Hj]%elem_of_cons Hl; [|by eapply Hfirst].
      assert (l = li) by congruence. lia.
Qed.

Lemma max_Zmax (a b : Z) : max a b = Z.max a b.
Proof. unfold max. destruct (Z.gtb_spec a b); lia. Qed.

Lemma window_start_nonneg (current windowSize : Z) : 0 ≤ window_start current windowSize.
Proof. unfold window_start. rewrite max_Zmax. lia. Qed.

Lemma window_start_reach (current windowSize : Z) :
  0 ≤ current ≤ MaxInt → 0 < windowSize ≤ MaxInt →
  current - windowSize ≤ window_start current windowSize.
Proof.
  intros Hc Hw. unfold window_start, int_sub. rewrite max_Zmax.
  rewrite wrap64_small by (unfold MinInt, MaxInt in *; lia). lia.
Qed.

Lemma candidates_range (start current i : Z) :
  i ∈ candidates start current ↔ start ≤ i < current.
Proof. unfold candidates. rewrite elem_of_seqZ. lia. Qed.

Lemma candidates_before (start current : Z) (cs1 cs2 : list Z) (i0 i : Z) :
  candidates start current = cs1 ++ i0 :: cs2 → start ≤ i < i0 → i ∈ cs1.
Proof.
  unfold candidates. intros Hcs Hi.
  assert (i0 = start + Z.of_nat (length cs1)) as Hi0.
  { assert ((cs1 ++ i0 :: cs2) !! length cs1 = Some i0) as Hl.
    { rewrite lookup_app_r, Nat.sub_diag by lia. done. }
    rewrite <- Hcs in Hl. by apply lookup_seqZ in Hl as [-> _]. }
  assert ((cs1 ++ i0 :: cs2) !! Z.to_nat (i - start) = Some i) as Hl.
  { rewrite <- Hcs. apply lookup_seqZ. split; [lia|].
    assert (i0 ∈ seqZ start (current - start)) as Hin.
    { rewrite Hcs. apply elem_of_app. right. by apply elem_of_cons; left. }
    apply elem_of_seqZ in Hin. lia. }
  rewrite lookup_app_l in Hl by lia.
  by eapply list_elem_of_lookup_2.
Qed.

(** [longestMatch] always returns.  The length is the greatest match length
    over the candidates of the window; when it is positive the distance is
    that of the first candidate that reaches it, and every candidate before
    it (farther from the cursor) matches strictly less. *)
Lemma longestMatch_Returns (data : list byte) (current windowSize : Z) :
  ∃ length distance,
    longestMatch data current windowSize = Returns (length, distance) ∧
    (∀ i l, window_start current windowSize ≤ i < current →
       match_at data i current = Returns l → l ≤ length) ∧
    ((length = 0 ∧ distance = 0) ∨
     (0 < length ∧
      ∃ i0, window_start current windowSize ≤ i0 < current ∧
        distance = current - i0 ∧ match_at data i0 current = Returns length ∧
        ∀ i l, window_start current windowSize ≤ i < i0 →
          match_at data i current = Returns l → l < length)).
Proof.
  unfold longestMatch.
  set (start := window_start current windowSize).
  destruct (longestMatch_fold data current (candidates start current) 0 0)
    as (length & distance & Hrun & Hmax & Hcase).
  { apply Forall_forall. intros i Hi%candidates_range.
    pose proof (window_start_nonneg current windowSize). unfold start in Hi. lia. }
  exists length, distance. split; [exact Hrun|]. split.
  - intros i l Hi. apply Hmax. by apply candidates_range.
  - destruct Hcase as [?|(Hpos & cs1 & i0 & cs2 & Hcs & Hi0 & -> & Hfirst)];
      [by left|right].
    split; [done|]. exists i0. split; [|split_and!; [done..|]].
    + apply candidates_range. rewrite Hcs.
      apply elem_of_app. right. by apply elem_of_cons; left.
    + intros i l Hi. apply Hfirst. by eapply candidates_before.
Qed.



(* --------------------------------------------------------------------- *)
(** * LZ77: the token sequence                                            *)
(* --------------------------------------------------------------------- *)

Lemma longestMatch_token (data : list byte) (current windowSize : Z) :
  0 ≤ current < len data →
  ∃ length distance,
    longestMatch data current windowSize = Returns (length, distance) ∧
    0 ≤ length ≤ distance ∧ distance ≤ current ∧
    (distance = 0 ∨ distance ≤ current - window_start current windowSize) ∧
    matches data (current - distance) current length ∧
    current + length ≤ len data.
Proof.
  intros Hcur.
  destruct (longestMatch_Returns data current windowSize)
    as (length & distance & Hrun & _ & Hcase).
  exists length, distance. split; [done|].
  destruct Hcase as [[-> ->]|(Hpos & i0 & Hi0 & -> & Hm & _)].
  - split_and!; try lia. intros k Hk. lia.
  - assert (0 ≤ i0) as Hi0'
      by (pose proof (window_start_nonneg current windowSize); lia).
    destruct (match_at_Returns data i0 current Hi0') as (l & Hl & Hok).
    assert (l = length) as -> by congruence.
    destruct Hok as (_ & Hmatch & [?|[? ?]]); [lia|].
    replace (current - (current - i0)) with i0 by lia.
    split_and!; try lia; done.
Qed.

(** Replaying a token of the compressor after the first [i] bytes of the
    input gives the first [i + length] bytes and the literal. *)
Lemma replay_token_match (input : list byte) (i length distance : Z) (next : byte) :
  0 ≤ length ≤ distance → distance ≤ i → i + length ≤ len input →
  matches input (i - distance) i length →
  replay_token (take (Z.to_nat i) input)
    {| Distance := distance; Length := length; Next := next |}
  = take (Z.to_nat (i + length)) input ++ [next].
Proof.
  intros Hl Hd Hi Hm. unfold replay_token, len in *. simpl.
  rewrite length_take_le by lia.
  rewrite Z2Nat.id, app_assoc by lia. f_equal.
  replace (Z.to_nat (i + length)) with (Z.to_nat i + Z.to_nat length)%nat by lia.
  rewrite <- take_take_drop. f_equal.
  apply list_eq. intros k.
  destruct (decide (k < Z.to_nat length)%nat) as [Hk|Hk].
  - rewrite !lookup_take_lt, !lookup_drop by done.
    rewrite lookup_take_lt by lia.
    destruct (Hm (Z.of_nat k)) as (b & Ha & Hb); [lia|].
    replace (Z.to_nat (i - distance) + k)%nat with (Z.to_nat (i - distance + Z.of_nat k)) by lia.
    replace (Z.to_nat i + k)%nat with (Z.to_nat (i + Z.of_nat k)) by lia.
    by rewrite Ha, Hb.
  - by rewrite !lookup_take_ge by lia.
Qed.

Lemma replay_snoc tokens t : replay (tokens ++ [t]) = replay_token (replay tokens) t.
Proof. unfold replay. by rewrite foldl_snoc. Qed.

(** The loop of [LZ77Compress], entered with the cursor at [i] and with
    tokens that replay to the first [i] bytes. *)
Lemma LZ77Compress_loop_Returns (fuel : nat) (input : list byte) (windowSize i : Z)
    (result : list LZ77Token) :
  0 ≤ i ≤ len input → len input - i < Z.of_nat fuel → (0 < fuel)%nat →
  replay result = take (Z.to_nat i) input →
  Forall (token_ok input windowSize) result →
  ∃ tokens,
    LZ77Compress_loop fuel input windowSize i result = Returns tokens ∧
    (replay tokens = input ∨ replay tokens = input ++ [x00]) ∧
    Forall (token_ok input windowSize) tokens.
Proof.
  revert i result. induction fuel as [|fuel IH]; intros i result Hi Hfuel Hpos Hrep Hok; [lia|].
  cbn [LZ77Compress_loop].
  destruct (Z.ltb_spec i (len input)) as [Hlt|Hge].
  - destruct (longestMatch_token input i windowSize)
      as (length & distance & -> & Hl & Hd & Hw & Hm & Hend); [lia|].
    rewrite bind_Returns.
    assert (token_ok input windowSize
              {| Distance := distance; Length := length; Next := x00 |} ∧
            ∀ next, token_ok input windowSize
              {| Distance := distance; Length := length; Next := next |}) as [_ Htok].
    { split; [|intros next]; (split; [done|]); simpl;
        (destruct Hw as [?|?]; [by left|right; exists i; lia]). }
    destruct (Z.ltb_spec (i + length) (len input)) as [Hin|Hout].
    + destruct (index_Returns input (i + length)) as (next & -> & Hnext); [lia|].
      rewrite bind_Returns.
      assert (replay (result ++ [{| Distance := distance; Length := length; Next := next |}])
              = take (Z.to_nat (i + (length + 1))) input) as Hrep'.
      { rewrite replay_snoc, Hrep, replay_token_match by (done || lia).
        replace (Z.to_nat (i + (length + 1))) with (S (Z.to_nat (i + length))) by lia.
        by rewrite (take_S_r _ _ next). }
      assert (Forall (token_ok input windowSize)
                (result ++ [{| Distance := distance; Length := length; Next := next |}]))
        as Hok' by (apply Forall_app; split; [done|by apply Forall_singleton]).
      destruct (Z.leb_spec (len input) (i + (length + 1))).
      * eexists. split; [done|]. split; [|done]. left.
        rewrite Hrep'. apply take_ge. unfold len in *. lia.
      * apply IH; [lia|lia|lia|done|done].
    + rewrite bind_Returns.
      destruct (Z.leb_spec (len input) (i + (length + 1))); [|lia].
      eexists. split; [done|]. split.
      * right. rewrite replay_snoc, Hrep, replay_token_match by (done || lia).
        f_equal. apply take_ge. unfold len in *. lia.
      * apply Forall_app; split; [done|by apply Forall_singleton].
  - eexists. split; [done|]. split; [|done]. left.
    rewrite Hrep. apply take_ge. unfold len in *. lia.
Qed.

Lemma LZ77Compress_Returns (input : list byte) (windowSize : Z) :
  ∃ tokens,
    LZ77Compress input windowSize = Returns tokens ∧
    (replay tokens = input ∨ replay tokens = input ++ [x00]) ∧
    Forall (token_ok input windowSize) tokens.
Proof.
  apply LZ77Compress_loop_Returns; [|unfold len; lia|lia|done|done].
  pose proof (len_nonneg input). lia.
Qed.

(** C5, as amended: every token of [LZ77Compress], for a positive window
    size, has [0 ≤ Distance ≤ windowSize] and [0 ≤ Length ≤ Distance]; so
    the length is at most the window size, which it can reach. *)
Theorem LZ77Compress_token_bounds (input : list byte) (windowSize : Z) :
  0 < windowSize ≤ MaxInt → len input ≤ MaxInt →
  ∃ tokens,
    LZ77Compress input windowSize = Returns tokens ∧
    Forall (λ t, 0 ≤ Distance t ≤ windowSize ∧ 0 ≤ Length t ≤ Distance t) tokens.
Proof.
  intros Hw Hlen.
  destruct (LZ77Compress_Returns input windowSize) as (tokens & Hrun & _ & Hok).
  exists tokens. split; [done|].
  eapply Forall_impl; [exact Hok|].
  intros t [Hl [Hd|(current & Hcur & Hd)]]; [lia|].
  pose proof (window_start_reach current windowSize). lia.
Qed.

(** C5 on "abab" with a window of 2. *)
Lemma LZ77Compress_token_bounds_witness :
  ∃ tokens,
    LZ77Compress [x61; x62; x61; x62] 2 = Returns tokens ∧
    Forall (λ t, 0 ≤ Distance t ≤ 2 ∧ 0 ≤ Length t ≤ Distance t) tokens.
Proof. apply LZ77Compress_token_bounds; by vm_compute. Defined.

(** C5 fails on "aa" with a window of 1: the second token has length 1,
    which is not below the window size. *)
Lemma LZ77Compress_token_bounds_counterexample :
  LZ77Compress [x61; x61] 1
  = Returns [ {| Distance := 0; Length := 0; Next := x61 |};
              {| Distance := 1; Length := 1; Next := x00 |} ] ∧
  (Length {| Distance := 1; Length := 1; Next := x00 |} <? 1) = false.
Proof. by vm_compute. Qed.

(** C3, as amended: replaying the tokens of [LZ77Compress] (copy [Length]
    bytes from [Distance] back, then append [Next]) gives the input, or
    the input followed by one zero byte when the last match ran to the end
    of the input; the input is the replay cut at the input's length. *)
Theorem LZ77Compress_replay (input : list byte) (windowSize : Z) :
  ∃ tokens,
    LZ77Compress input windowSize = Returns tokens ∧
    take (length input) (replay tokens) = input ∧
    (replay tokens = input ∨ replay tokens = input ++ [x00]).
Proof.
  destruct (LZ77Compress_Returns input windowSize) as (tokens & Hrun & Hrep & _).
  exists tokens. split_and!; [done| |done].
  destruct Hrep as [-> | ->]; [by apply take_ge | by apply take_app_length].
Qed.

(** C3 fails on "aa" and "aa\x00" with a window of 1: both have the same
    token sequence, whose last token holds a zero byte that stands for "no
    literal" in the first and for the literal in the second; replayed, it
    gives "aa\x00". *)
Lemma LZ77Compress_replay_counterexample :
  LZ77Compress [x61; x61] 1
  = Returns [ {| Distance := 0; Length := 0; Next := x61 |};
              {| Distance := 1; Length := 1; Next := x00 |} ] ∧
  LZ77Compress [x61; x61; x00] 1
  = Returns [ {| Distance := 0; Length := 0; Next := x61 |};
              {| Distance := 1; Length := 1; Next := x00 |} ] ∧
  replay [ {| Distance := 0; Length := 0; Next := x61 |};
           {| Distance := 1; Length := 1; Next := x00 |} ] = [x61; x61; x00] ∧
  [x61; x61; x00] ≠ [x61; x61].
Proof. split_and!; by vm_compute. Qed.

(* ===================================================================== *)
(*  Further properties of the code                                       *)
(* ===================================================================== *)

(* --------------------------------------------------------------------- *)
(** * The tree builder and the frequency table                            *)
(* --------------------------------------------------------------------- *)

(** X1: [BuildTree] panics exactly on the empty list of leaves (the last
    [heap.Pop] indexes an empty queue); on any other list it returns a tree
    whose leaves are the given leaves, each once. *)
Theorem BuildTree_panics_iff_empty (leaves : list HuffmanLeaf) :
  (BuildTree leaves = Panics ↔ leaves = []) ∧
  (leaves ≠ [] → ∃ t, BuildTree leaves = Returns t ∧ tree_leaves t ≡ₚ leaves).
Proof.
  split; [split|].
  - intros Hp. destruct leaves as [|hl leaves]; [done|].
    destruct (BuildTree_Returns (hl :: leaves)) as (t & Ht & _); [done|]. congruence.
  - by intros ->.
  - intros Hne. destruct (BuildTree_Returns leaves Hne) as (t & Ht & Hl & _). eauto.
Qed.

Lemma occurrences_snoc x s c :
  occurrences x (s ++ [c]) = occurrences x s + (if decide (c = x) then 1 else 0).
Proof.
  unfold occurrences, len. rewrite filter_app, length_app.
  rewrite filter_cons, filter_nil. destruct (decide (c = x)); simpl; lia.
Qed.

Lemma occurrences_bounds x s : 0 ≤ occurrences x s ≤ len s.
Proof.
  unfold occurrences, len. pose proof (length_filter (λ y, y = x) s). lia.
Qed.

Lemma occurrences_pos x s : 0 < occurrences x s ↔ x ∈ s.
Proof.
  unfold occurrences, len. split.
  - intros Hpos. destruct (filter (λ y, y = x) s) as [|y l] eqn:Hf; [simpl in *; lia|].
    assert (y ∈ filter (λ y, y = x) s) as Hy by (rewrite Hf; left).
    apply list_elem_of_filter in Hy as [-> ?]. done.
  - intros Hx. assert (x ∈ filter (λ y, y = x) s) as Hin by (by apply list_elem_of_filter).
    destruct (filter (λ y, y = x) s); [by apply elem_of_nil in Hin|simpl; lia].
Qed.

Lemma frequencies_snoc s c : frequencies (s ++ [c]) = count_rune (frequencies s) c.
Proof. unfold frequencies. by rewrite foldl_snoc. Qed.

(** The map built by the counting loop holds, for each symbol of the
    string, the number of its occurrences. *)
Lemma frequencies_lookup s x :
  len s ≤ MaxInt →
  frequencies s !! x = if decide (x ∈ s) then Some (occurrences x s) else None.
Proof.
  revert x. induction s as [|c s IH] using rev_ind; intros x Hlen.
  { unfold frequencies. simpl. rewrite lookup_empty.
    destruct (decide (x ∈ [])) as [Hin|]; [by apply elem_of_nil in Hin|done]. }
  unfold len in *. rewrite length_app in Hlen. simpl in Hlen.
  rewrite frequencies_snoc. unfold count_rune.
  assert (default 0 (frequencies s !! c) = occurrences c s) as Hc.
  { rewrite IH by lia. destruct (decide (c ∈ s)) as [|Hn]; [done|]. simpl.
    pose proof (occurrences_bounds c s).
    destruct (Z_lt_le_dec 0 (occurrences c s)) as [Hpos|?]; [|lia].
    by apply occurrences_pos in Hpos. }
  rewrite Hc, occurrences_snoc. unfold int_add.
  pose proof (occurrences_bounds c s) as Hb. unfold len in Hb.
  rewrite wrap64_small by (unfold MinInt, MaxInt in *; lia).
  destruct (decide (c = x)) as [->|Hne].
  - rewrite lookup_insert_eq, decide_True; [done|].
    apply elem_of_app. right. by left.
  - rewrite lookup_insert_ne, IH by (done || lia).
    destruct (decide (x ∈ s)) as [Hx|Hx].
    + rewrite decide_True by (apply elem_of_app; by left). f_equal. lia.
    + rewrite decide_False; [done|].
      intros [?|Hin%list_elem_of_singleton]%elem_of_app; [done|congruence].
Qed.

(** X2: every leaf of the frequency table holds the number of occurrences
    of its symbol in the string (a Go string has at most [MaxInt] symbols,
    so the counter never wraps). *)
Theorem BuildFrequencyTable_occurrences (s : list rune) (leaves : list HuffmanLeaf) :
  len s ≤ MaxInt → BuildFrequencyTable s leaves →
  ∀ hl, hl ∈ leaves →
    Frequency hl = occurrences (Value hl) s ∧ 1 ≤ Frequency hl ∧ Char hl = [sanitize (Value hl)].
Proof.
  intros Hlen (kvs & Hp & ->) hl Hin. unfold range_order in Hp.
  apply list_elem_of_fmap in Hin as ([k v] & -> & Hkv). simpl.
  rewrite Hp in Hkv. apply elem_of_map_to_list in Hkv.
  rewrite frequencies_lookup in Hkv by done.
  destruct (decide (k ∈ s)) as [Hk|]; [|done]. simplify_eq.
  split_and!; [done| |done]. apply occurrences_pos in Hk. lia.
Qed.

Lemma BuildFrequencyTable_occurrences_witness :
  Forall (λ hl, Frequency hl = occurrences (Value hl) abracadabra ∧ 1 ≤ Frequency hl ∧
                Char hl = [sanitize (Value hl)]) abracadabra_leaves.
Proof.
  apply Forall_forall. apply BuildFrequencyTable_occurrences;
    [by vm_compute | apply BuildFrequencyTable_abracadabra].
Defined.

(** X3: on the frequency table of a string, [BuildTree] panics exactly when
    the string is empty: the table of the empty string is empty. *)
Theorem BuildTree_panics_on_empty_string (s : list rune) (leaves : list HuffmanLeaf) :
  BuildFrequencyTable s leaves →
  (leaves = [] ↔ s = []) ∧ (BuildTree leaves = Panics ↔ s = []).
Proof.
  intros Htable.
  destruct (BuildFrequencyTable_symbols s leaves Htable) as [_ Hsym].
  assert (leaves = [] ↔ s = []) as Hempty.
  { split; intros ->.
    - destruct s as [|c s]; [done|].
      assert (c ∈ Value <$> []) as Hc by (apply Hsym; left). by apply elem_of_nil in Hc.
    - destruct leaves as [|hl leaves]; [done|].
      assert (Value hl ∈ []) as Hc by (apply Hsym; left). by apply elem_of_nil in Hc. }
  split; [done|]. rewrite <- Hempty. split.
  - intros Hp. destruct leaves as [|hl leaves]; [done|].
    destruct (BuildTree_Returns (hl :: leaves)) as (t & Ht & _); [done|]. congruence.
  - by intros ->.
Qed.

Lemma BuildTree_panics_on_empty_string_witness :
  (@nil HuffmanLeaf = [] ↔ @nil Z = []) ∧ (BuildTree [] = Panics ↔ @nil Z = []).
Proof.
  apply (BuildTree_panics_on_empty_string [] []).
  exists []. split; [|done]. unfold range_order, frequencies. simpl.
  by rewrite map_to_list_empty.
Defined.

(* --------------------------------------------------------------------- *)
(** * The code table and the depth of the tree                            *)
(* --------------------------------------------------------------------- *)

Lemma getMaxDepth_nonneg t : 0 ≤ getMaxDepth t.
Proof.
  induction t as [hl|f v l IHl r IHr]; simpl; [done|].
  destruct (Z.gtb_spec (getMaxDepth l) (getMaxDepth r)); lia.
Qed.

Lemma code_of_depth t path x : code_of t path x → len path ≤ getMaxDepth t.
Proof.
  unfold len. induction 1 as [hl|f v l r path x _ IH|f v l r path x _ IH]; simpl; [done|..];
    destruct (Z.gtb_spec (getMaxDepth l) (getMaxDepth r)); lia.
Qed.

Lemma code_of_deepest t : ∃ path x, code_of t path x ∧ len path = getMaxDepth t.
Proof.
  unfold len. induction t as [hl|f v l (pl & xl & Hl & Hdl) r (pr & xr & Hr & Hdr)].
  { exists [], (Value hl). split; [constructor|done]. }
  simpl. destruct (Z.gtb_spec (getMaxDepth l) (getMaxDepth r)).
  - exists (bit0 :: pl), xl. split; [by constructor|simpl; lia].
  - exists (bit1 :: pr), xr. split; [by constructor|simpl; lia].
Qed.

(** With one leaf per symbol the table holds, for every leaf, the path to
    it: no entry is overwritten when the tables of the subtrees are merged. *)
Lemma buildEncoding_code_of t prefix path x :
  NoDup (Value <$> tree_leaves t) → code_of t path x →
  buildEncoding t prefix !! x = Some (prefix ++ path).
Proof.
  intros Hnd Hcode. revert prefix Hnd.
  induction Hcode as [hl|f v l r path x Hc IH|f v l r path x Hc IH]; intros prefix Hnd.
  - simpl. by rewrite lookup_insert_eq, app_nil_r.
  - rewrite buildEncoding_Node. simpl in Hnd. rewrite fmap_app in Hnd.
    apply NoDup_app in Hnd as (Hl & Hdisj & Hr).
    rewrite lookup_union_r.
    + rewrite IH by done. by rewrite <- app_assoc.
    + apply eq_None_not_Some. rewrite buildEncoding_dom.
      intros Hin. apply (Hdisj x); [by eapply code_of_elem_of|done].
  - rewrite buildEncoding_Node. simpl in Hnd. rewrite fmap_app in Hnd.
    apply NoDup_app in Hnd as (Hl & Hdisj & Hr).
    erewrite lookup_union_Some_l; [done|].
    rewrite IH by done. by rewrite <- app_assoc.
Qed.

(** X4: for a tree with one leaf per symbol, the table of [buildEncoding]
    maps a symbol to a code exactly when the code is the prefix followed by
    the path ('0' left, '1' right) from the root to the leaf of the symbol. *)
Theorem buildEncoding_paths (t : HuffmanTree) (prefix : list rune) :
  NoDup (Value <$> tree_leaves t) →
  ∀ x c, buildEncoding t prefix !! x = Some c ↔
         ∃ path, c = prefix ++ path ∧ code_of t path x.
Proof.
  intros Hnd x c. split; [apply buildEncoding_lookup|].
  intros (path & -> & Hcode). by apply buildEncoding_code_of.
Qed.

Lemma buildEncoding_paths_witness :
  buildEncoding (Node 2 0 (Leaf aaaa_leaf) (Leaf (Build_HuffmanLeaf 1 98 [98]))) [] !! 98
    = Some [bit1] ↔
  ∃ path, [bit1] = [] ++ path ∧
    code_of (Node 2 0 (Leaf aaaa_leaf) (Leaf (Build_HuffmanLeaf 1 98 [98]))) path 98.
Proof. apply buildEncoding_paths. by apply (bool_decide_unpack _). Defined.

(** X5: no code of the table is longer than [getMaxDepth] of the tree, and
    with one leaf per symbol some code is exactly that long. *)
Theorem getMaxDepth_longest_code (t : HuffmanTree) :
  (∀ x c, buildEncoding t [] !! x = Some c → len c ≤ getMaxDepth t) ∧
  (NoDup (Value <$> tree_leaves t) →
   ∃ x c, buildEncoding t [] !! x = Some c ∧ len c = getMaxDepth t).
Proof.
  split.
  - intros x c (path & -> & Hcode)%buildEncoding_lookup. by eapply code_of_depth.
  - intros Hnd. destruct (code_of_deepest t) as (path & x & Hcode & Hlen).
    exists x, path. split; [|done].
    by rewrite (buildEncoding_code_of t [] path x).
Qed.

(* --------------------------------------------------------------------- *)
(** * Encoding                                                            *)
(* --------------------------------------------------------------------- *)

Lemma applyHuffmanEncoding_app_from encoding s acc :
  foldl (λ encoded c, encoded ++ default [] (encoding !! c)) acc s
  = acc ++ applyHuffmanEncoding s encoding.
Proof.
  unfold applyHuffmanEncoding. revert acc.
  induction s as [|c s IH]; intros acc; simpl; [by rewrite app_nil_r|].
  rewrite IH, (IH (default [] _)). by rewrite app_assoc.
Qed.

Lemma applyHuffmanEncoding_cons encoding c s :
  applyHuffmanEncoding (c :: s) encoding
  = default [] (encoding !! c) ++ applyHuffmanEncoding s encoding.
Proof. unfold applyHuffmanEncoding at 1. simpl. apply applyHuffmanEncoding_app_from. Qed.

(** X6: [applyHuffmanEncoding] encodes a concatenation piece by piece, and a
    symbol that the table does not hold adds nothing to the output: it is
    dropped without any failure. *)
Theorem applyHuffmanEncoding_drops_missing (encoding : gmap Z (list rune)) (s1 s2 : list rune) :
  applyHuffmanEncoding (s1 ++ s2) encoding
  = applyHuffmanEncoding s1 encoding ++ applyHuffmanEncoding s2 encoding ∧
  applyHuffmanEncoding s1 encoding
  = applyHuffmanEncoding (filter (λ c, is_Some (encoding !! c)) s1) encoding.
Proof.
  split.
  - unfold applyHuffmanEncoding at 1. rewrite foldl_app.
    apply applyHuffmanEncoding_app_from.
  - induction s1 as [|c s IH]; [done|].
    rewrite filter_cons. destruct (decide (is_Some (encoding !! c))) as [Hc|Hc].
    + by rewrite !applyHuffmanEncoding_cons, IH.
    + rewrite applyHuffmanEncoding_cons, IH.
      apply eq_None_not_Some in Hc. by rewrite Hc.
Qed.

(** Bounds on the length of the output from bounds on the codes. *)
Lemma applyHuffmanEncoding_length encoding s lo hi :
  (∀ x, x ∈ s → ∃ c, encoding !! x = Some c ∧ lo ≤ len c ≤ hi) →
  lo * len s ≤ len (applyHuffmanEncoding s encoding) ≤ hi * len s.
Proof.
  unfold len. induction s as [|x s IH]; intros Hs; [simpl; lia|].
  rewrite applyHuffmanEncoding_cons, length_app.
  destruct (Hs x) as (c & -> & Hc); [left|]. simpl.
  assert (lo * Z.of_nat (length s) ≤ Z.of_nat (length (applyHuffmanEncoding s encoding))
          ≤ hi * Z.of_nat (length s)) by (apply IH; intros y Hy; apply Hs; by right).
  lia.
Qed.

(** The table of the tree built for a string with two distinct symbols or
    more: it holds every symbol of the string, with a non-empty code over
    '0' and '1' that is at most [getMaxDepth] long. *)
Lemma own_table s leaves :
  (∃ x y, x ∈ s ∧ y ∈ s ∧ x ≠ y) → BuildFrequencyTable s leaves →
  ∃ t, BuildTree leaves = Returns t ∧
    (∀ x, x ∈ s → ∃ c, buildEncoding t [] !! x = Some c ∧ 1 ≤ len c ≤ getMaxDepth t) ∧
    (∀ x c, buildEncoding t [] !! x = Some c → c ≠ [] ∧ is_string c).
Proof.
  intros (x & y & Hx & Hy & Hxy) Htable.
  destruct (BuildFrequencyTable_symbols s leaves Htable) as [_ Hsym].
  assert (2 ≤ length leaves)%nat as Hlen.
  { rewrite <- (length_fmap Value). apply (two_elements _ x y); [by apply Hsym..|done]. }
  destruct (BuildTree_Returns leaves) as (t & Ht & Hleaves & _ & Hnode).
  { intros ->. simpl in Hlen. lia. }
  destruct (Hnode Hlen) as (f & v & l & r & Hroot).
  exists t. split; [done|].
  assert (∀ z c, buildEncoding t [] !! z = Some c → c ≠ [] ∧ is_string c) as Hcodes.
  { intros z c (path & -> & Hcode)%buildEncoding_lookup. simpl. split.
    - subst t. by apply code_of_Node_nonempty in Hcode.
    - by apply code_of_bits, bits_is_string in Hcode. }
  split; [|done].
  intros z Hz. destruct (buildEncoding_is_Some t [] z) as [c Hc].
  { rewrite Hleaves. by apply Hsym. }
  exists c. split; [done|]. destruct (Hcodes z c Hc) as [Hne _].
  apply buildEncoding_lookup in Hc as (path & -> & Hcode). simpl in *.
  pose proof (code_of_depth _ _ _ Hcode). unfold len in *.
  destruct path; [done|simpl in *; lia].
Qed.

(** The output of the encoder with a table of [buildEncoding] is over '0'
    and '1'. *)
Lemma applyHuffmanEncoding_bits t prefix s :
  Forall (λ b, b = bit0 ∨ b = bit1) prefix →
  Forall (λ b, b = bit0 ∨ b = bit1) (applyHuffmanEncoding s (buildEncoding t prefix)).
Proof.
  intros Hp. induction s as [|c s IH]; [constructor|].
  rewrite applyHuffmanEncoding_cons. apply Forall_app. split; [|apply IH].
  destruct (buildEncoding t prefix !! c) as [code|] eqn:Hc; [|constructor]. simpl.
  apply buildEncoding_lookup in Hc as (path & -> & Hcode).
  apply Forall_app. split; [done|]. by eapply code_of_bits.
Qed.

(** X7: for a string with two distinct symbols or more and the table of its
    own tree, the encoding has between one and [getMaxDepth] bits per
    symbol of the string. *)
Theorem applyHuffmanEncoding_size (s : list rune) (leaves : list HuffmanLeaf) :
  (∃ x y, x ∈ s ∧ y ∈ s ∧ x ≠ y) → BuildFrequencyTable s leaves →
  ∃ t, BuildTree leaves = Returns t ∧
    len s ≤ len (applyHuffmanEncoding s (buildEncoding t []))
          ≤ getMaxDepth t * len s ∧
    Forall (λ b, b = bit0 ∨ b = bit1) (applyHuffmanEncoding s (buildEncoding t [])).
Proof.
  intros Htwo Htable.
  destruct (own_table s leaves Htwo Htable) as (t & Ht & Hdom & _).
  exists t. split; [done|]. split.
  - pose proof (applyHuffmanEncoding_length (buildEncoding t []) s 1 (getMaxDepth t) Hdom).
    lia.
  - by apply applyHuffmanEncoding_bits.
Qed.

Lemma applyHuffmanEncoding_size_witness :
  ∃ t, BuildTree abracadabra_leaves = Returns t ∧
    len abracadabra ≤ len (applyHuffmanEncoding abracadabra (buildEncoding t []))
          ≤ getMaxDepth t * len abracadabra ∧
    Forall (λ b, b = bit0 ∨ b = bit1) (applyHuffmanEncoding abracadabra (buildEncoding t [])).
Proof.
  apply applyHuffmanEncoding_size.
  - exists 97, 98. split_and!; [| |done]; apply list_elem_of_In; simpl; tauto.
  - apply BuildFrequencyTable_abracadabra.
Defined.


(* --------------------------------------------------------------------- *)
(** * The reversed table and the decoder                                  *)
(* --------------------------------------------------------------------- *)

(** X8: whatever the order of the range, the map that [reverseMap] builds
    sends a code only to a symbol that has this code, and holds every code
    of the table; when no two symbols share a code it is the inverse of
    the table. *)
Theorem reverseMap_inverse (m : gmap Z (list rune)) (kvs : list (Z * list rune)) :
  range_order m kvs →
  (∀ v k, reverseMap_visiting kvs !! v = Some k → m !! k = Some v) ∧
  (∀ k v, m !! k = Some v → is_Some (reverseMap_visiting kvs !! v)) ∧
  ((∀ k1 k2 v, m !! k1 = Some v → m !! k2 = Some v → k1 = k2) →
   ∀ k v, m !! k = Some v → reverseMap_visiting kvs !! v = Some k).
Proof.
  intros Hp.
  assert (∀ k v, (k, v) ∈ kvs ↔ m !! k = Some v) as Hin.
  { intros k v. unfold range_order in Hp. by rewrite Hp, elem_of_map_to_list. }
  split_and!.
  - intros v k Hv. by apply Hin, reverseMap_visiting_lookup.
  - intros k v Hk. eapply reverseMap_visiting_is_Some. by apply Hin.
  - intros Hinj k v Hk.
    destruct (reverseMap_visiting_is_Some kvs v k) as [k' Hk']; [by apply Hin|].
    rewrite Hk'. f_equal. apply (Hinj k' k v); [|done].
    by apply Hin, reverseMap_visiting_lookup.
Qed.

Lemma reverseMap_inverse_witness :
  (∀ v k, reverseMap_visiting (map_to_list table_a0_b10) !! v = Some k →
     table_a0_b10 !! k = Some v) ∧
  (∀ k v, table_a0_b10 !! k = Some v →
     is_Some (reverseMap_visiting (map_to_list table_a0_b10) !! v)) ∧
  ((∀ k1 k2 v, table_a0_b10 !! k1 = Some v → table_a0_b10 !! k2 = Some v → k1 = k2) →
   ∀ k v, table_a0_b10 !! k = Some v →
     reverseMap_visiting (map_to_list table_a0_b10) !! v = Some k).
Proof. apply reverseMap_inverse, range_order_map_to_list. Defined.

(** What the decoding loop keeps true: a symbol is emitted only for a
    non-empty buffer that is a code of the table, and symbols and buffer
    together are no longer than what was read. *)
Lemma decode_loop_output kvs s :
  let st := decode_loop (reverseMap_visiting kvs) s in
  (length st.1 + length st.2 ≤ length s)%nat ∧
  ∀ y, y ∈ st.1 → ∃ k c, (k, c) ∈ kvs ∧ c ≠ [] ∧ y = sanitize k.
Proof.
  unfold decode_loop. induction s as [|b s [IHlen IHsym]] using rev_ind.
  { simpl. split; [lia|]. by intros y ?%elem_of_nil. }
  rewrite foldl_snoc, length_app.
  destruct (foldl (decode_step (reverseMap_visiting kvs)) ([], []) s) as [decoded code].
  simpl in *. unfold WriteRune.
  destruct (reverseMap_visiting kvs !! (code ++ [sanitize b])) as [val|] eqn:Hlook; simpl.
  - rewrite length_app. simpl. split; [lia|].
    intros y [Hy|Hy%list_elem_of_singleton]%elem_of_app; [by apply IHsym|subst y].
    exists val, (code ++ [sanitize b]). split_and!; [|by destruct code|done].
    by apply reverseMap_visiting_lookup.
  - rewrite length_app. simpl. split; [lia|done].
Qed.

(** X9: [applyHuffmanDecoding] never returns more symbols than the stream
    has runes, and every symbol it returns has a non-empty code in the
    table; a symbol whose code is the empty string is never decoded. *)
Theorem applyHuffmanDecoding_output (s : list rune) (encoding : gmap Z (list rune))
    (decoded : list rune) :
  applyHuffmanDecoding s encoding decoded →
  (length decoded ≤ length s)%nat ∧
  ∀ y, y ∈ decoded → ∃ k c, encoding !! k = Some c ∧ c ≠ [] ∧ y = sanitize k.
Proof.
  intros (kvs & Hp & ->). unfold applyHuffmanDecoding_visiting.
  destruct (decode_loop_output kvs s) as [Hlen Hsym]. split; [lia|].
  intros y Hy. destruct (Hsym y Hy) as (k & c & Hin & Hne & ->).
  exists k, c. split_and!; [|done..].
  unfold range_order in Hp. rewrite Hp in Hin. by apply elem_of_map_to_list.
Qed.

Lemma applyHuffmanDecoding_output_witness :
  (length [97] ≤ length [bit0; bit1])%nat ∧
  ∀ y, y ∈ [97] → ∃ k c, table_a0_b10 !! k = Some c ∧ c ≠ [] ∧ y = sanitize k.
Proof.
  apply (applyHuffmanDecoding_output [bit0; bit1] table_a0_b10 [97]).
  exists (map_to_list table_a0_b10).
  split; [apply range_order_map_to_list | by vm_compute].
Defined.

Lemma table_a0_b10_lookup x c :
  table_a0_b10 !! x = Some c → (x = 97 ∧ c = [bit0]) ∨ (x = 98 ∧ c = [bit1; bit0]).
Proof.
  unfold table_a0_b10.
  intros [[<- <-]|[_ [[<- <-]|[_ He]]%lookup_insert_Some]]%lookup_insert_Some; auto.
  by rewrite lookup_empty in He.
Qed.

(** X10: with any table that is prefix-free and has no empty code, built by
    [buildEncoding] or not, decoding the encoding of a string over the
    symbols of the table gives the string back, whatever the order in
    which the table is ranged over. *)
Theorem prefix_free_round_trip (encoding : gmap Z (list rune)) (s decoded : list rune) :
  prefix_free encoding →
  (∀ x c, encoding !! x = Some c → c ≠ [] ∧ is_string c) →
  is_string s → (∀ x, x ∈ s → is_Some (encoding !! x)) →
  applyHuffmanDecoding (applyHuffmanEncoding s encoding) encoding decoded →
  decoded = s.
Proof.
  intros Hfree Hcodes Hs Hdom (kvs & Hp & ->). unfold applyHuffmanDecoding_visiting.
  rewrite (decode_loop_encoding encoding kvs); [done|done|done|..|done|done].
  - intros x c Hx. by destruct (Hcodes x c Hx).
  - intros x c Hx. by destruct (Hcodes x c Hx).
Qed.

Lemma prefix_free_round_trip_witness :
  applyHuffmanDecoding_visiting (map_to_list table_a0_b10)
    (applyHuffmanEncoding [97; 98; 97] table_a0_b10) = [97; 98; 97].
Proof.
  apply (prefix_free_round_trip table_a0_b10).
  - intros x y cx cy [[-> ->]|[-> ->]]%table_a0_b10_lookup
      [[-> ->]|[-> ->]]%table_a0_b10_lookup Hne Hpre; try done.
    + by apply prefix_cons_inv_1 in Hpre.
    + by apply prefix_cons_inv_1 in Hpre.
  - intros x c [[-> ->]|[-> ->]]%table_a0_b10_lookup; (split; [done|repeat constructor]).
  - repeat constructor.
  - intros x Hx. apply list_elem_of_In in Hx. simpl in Hx.
    destruct Hx as [<-|[<-|[<-|[]]]]; by eexists.
  - exists (map_to_list table_a0_b10). split; [apply range_order_map_to_list|done].
Defined.

(* --------------------------------------------------------------------- *)
(** * More on the case-shift transform                                    *)
(* --------------------------------------------------------------------- *)

Section ShiftMore.
Context `{Unicode}.

(** X11: the output of [applyShiftString] is a well-formed string that has
    at least as many symbols as the input and at most twice as many. *)
Theorem applyShiftString_length (s : list rune) :
  is_string (applyShiftString s) ∧
  (length s ≤ length (applyShiftString s) ≤ 2 * length s)%nat.
Proof.
  unfold applyShiftString. induction s as [|c s [IHs IHl]] using rev_ind.
  { split; [constructor|simpl; lia]. }
  rewrite foldl_snoc, length_app. change (length [c]) with 1%nat.
  destruct (foldl applyShift_step ([], false) s) as [out sh]. cbn [fst] in IHs, IHl.
  destruct (applyShift_step_output out sh c IHs) as [Hs Hl]. split; [done|lia].
Qed.

(** X12: [removeShiftString] never lengthens its input, and it gives back
    unchanged a string that holds neither marker. *)
Theorem removeShiftString_length (s : list rune) :
  (length (removeShiftString s) ≤ length s)%nat ∧
  (is_string s → upArrow ∉ s → downArrow ∉ s → removeShiftString s = s).
Proof.
  unfold removeShiftString. split.
  - induction s as [|c s IH] using rev_ind; [done|].
    rewrite foldl_snoc, length_app.
    destruct (foldl removeShift_step ([], false) s) as [out sh]. simpl in *.
    unfold WriteRune. repeat case_match; simpl; rewrite ?length_app; simpl; lia.
  - intros Hs Hu Hd.
    enough (foldl removeShift_step ([], false) s = (s, false)) as -> by done.
    induction s as [|c s IH] using rev_ind; [done|].
    apply is_string_app in Hs as [Hs Hc].
    unfold is_string in Hc; rewrite Forall_singleton in Hc.
    rewrite foldl_snoc, IH; [|done|..].
    + simpl. rewrite (proj2 (Z.eqb_neq c upArrow)), (proj2 (Z.eqb_neq c downArrow)).
      * by rewrite WriteRune_valid.
      * intros ->. apply Hd, elem_of_app. right. by left.
      * intros ->. apply Hu, elem_of_app. right. by left.
    + intros Hin. apply Hu, elem_of_app. by left.
    + intros Hin. apply Hd, elem_of_app. by left.
Qed.

(** X13: [applyShiftString] gives back unchanged a string without
    upper-case symbols: the scan never leaves the unshifted state. *)
Theorem applyShiftString_no_upper_unchanged (s : list rune) :
  is_string s → Forall (λ c, IsUpper c = false) s → applyShiftString s = s.
Proof.
  intros Hs Hup. unfold applyShiftString.
  enough (foldl applyShift_step ([], false) s = (s, false)) as -> by done.
  induction s as [|c s IH] using rev_ind; [done|].
  apply is_string_app in Hs as [Hs Hc].
  unfold is_string in Hc; rewrite Forall_singleton in Hc.
  apply Forall_app in Hup as [Hup Hcu]. rewrite Forall_singleton in Hcu.
  rewrite foldl_snoc, IH by done. simpl. rewrite Hcu, andb_false_r. simpl.
  by rewrite WriteRune_valid.
Qed.

(** X14: the pipeline of [main]: shift the case, build the table of the
    shifted string, encode, decode, and undo the shift.  For a string
    without the markers on which upper-casing undoes lower-casing, and
    whose shifted form has two distinct symbols, the tree is built and
    every run gives the string back. *)
Theorem shift_huffman_pipeline (s : list rune) (leaves : list HuffmanLeaf) :
  is_string s → upArrow ∉ s → downArrow ∉ s → case_stable s →
  (∃ x y, x ∈ applyShiftString s ∧ y ∈ applyShiftString s ∧ x ≠ y) →
  BuildFrequencyTable (applyShiftString s) leaves →
  ∃ t, BuildTree leaves = Returns t ∧
    ∀ decoded,
      applyHuffmanDecoding
        (applyHuffmanEncoding (applyShiftString s) (buildEncoding t []))
        (buildEncoding t []) decoded →
      removeShiftString decoded = s.
Proof.
  intros Hs Hu Hd Hstable Htwo Htable.
  destruct (own_table _ leaves Htwo Htable) as (t & Ht & Hdom & Hcodes).
  exists t. split; [done|].
  intros decoded (kvs & Hp & ->). unfold applyHuffmanDecoding_visiting.
  rewrite (decode_loop_encoding (buildEncoding t []) kvs); [|done|..].
  - simpl. unfold removeShiftString, applyShiftString.
    by rewrite removeShift_applyShift_state.
  - apply buildEncoding_prefix_free.
  - intros x c Hx. by destruct (Hcodes x c Hx).
  - intros x c Hx. by destruct (Hcodes x c Hx).
  - apply applyShiftString_is_string.
  - intros x Hx. destruct (Hdom x Hx) as (c & Hc & _). by eexists.
Qed.
End ShiftMore.

Lemma removeShiftString_length_witness :
  removeShiftString abracadabra = abracadabra.
Proof.
  apply removeShiftString_length.
  - repeat constructor.
  - intros Hin. by in_list_cases Hin.
  - intros Hin. by in_list_cases Hin.
Defined.

Lemma applyShiftString_no_upper_unchanged_witness :
  applyShiftString abracadabra = abracadabra.
Proof. apply applyShiftString_no_upper_unchanged; repeat constructor. Defined.

Lemma shift_huffman_pipeline_witness :
  ∃ t,
    BuildTree (BuildFrequencyTable_visiting
                 (map_to_list (frequencies (applyShiftString AbRaCaDaBrA)))) = Returns t ∧
    ∀ decoded,
      applyHuffmanDecoding
        (applyHuffmanEncoding (applyShiftString AbRaCaDaBrA) (buildEncoding t []))
        (buildEncoding t []) decoded →
      removeShiftString decoded = AbRaCaDaBrA.
Proof.
  apply shift_huffman_pipeline.
  - repeat constructor.
  - intros Hin. by in_list_cases Hin.
  - intros Hin. by in_list_cases Hin.
  - intros c Hin Hl. in_list_cases Hin; first [reflexivity | discriminate Hl].
  - exists upArrow, 97. split_and!; [| |done]; apply list_elem_of_In; vm_compute; tauto.
  - eexists. split; [apply range_order_map_to_list|done].
Defined.

(* --------------------------------------------------------------------- *)
(** * More on LZ77                                                        *)
(* --------------------------------------------------------------------- *)

(** The inner loop stops only where the guard of the loop fails. *)
Lemma match_loop_stops (fuel : nat) (data : list byte) (i current l l' : Z) :
  0 ≤ i → 0 ≤ l →
  match_loop fuel data i current l = Returns l' →
  l ≤ l' ∧
  ¬ (l' < current - i ∧ i + l' < len data ∧ current + l' < len data ∧
     data !! Z.to_nat (i + l') = data !! Z.to_nat (current + l')).
Proof.
  intros Hi. revert l. induction fuel as [|fuel IH]; intros l Hl; [done|].
  simpl.
  destruct (Z.ltb_spec l (current - i)); simpl;
    [|intros [= <-]; split; [lia|intros (? & _); lia]].
  destruct (Z.ltb_spec (i + l) (len data)); simpl;
    [|intros [= <-]; split; [lia|intros (_ & ? & _); lia]].
  destruct (Z.ltb_spec (current + l) (len data)); simpl;
    [|intros [= <-]; split; [lia|intros (_ & _ & ? & _); lia]].
  destruct (index_Returns data (i + l)) as (a & -> & Ha); [lia|].
  destruct (index_Returns data (current + l)) as (b & -> & Hb); [lia|].
  simpl. destruct (Byte.eqb a b) eqn:Heq.
  - intros Hrun. destruct (IH (l + 1)) as [Hle Hstop]; [lia|done|]. split; [lia|done].
  - intros [= <-]. split; [lia|]. intros (_ & _ & _ & Hsame).
    rewrite Ha, Hb in Hsame. apply eqb_false in Heq. congruence.
Qed.

(** X15: [longestMatch] returns the greatest length of a match that starts
    in the window and stops before the cursor.  When the length is
    positive, the position at the returned distance lies in the window and
    matches that many bytes without reaching the cursor or running past
    the end of the data; when it is 0, the distance is 0.  No candidate
    position of the window matches more bytes without reaching the cursor
    or running past the end of the data. *)
Theorem longestMatch_longest (data : list byte) (current windowSize : Z) :
  ∃ length distance,
    longestMatch data current windowSize = Returns (length, distance) ∧
    0 ≤ length ∧ (length = 0 → distance = 0) ∧
    (0 < length →
     window_start current windowSize ≤ current - distance < current ∧
     length ≤ distance ∧ current + length ≤ len data ∧
     matches data (current - distance) current length) ∧
    ∀ i l, window_start current windowSize ≤ i < current →
      0 ≤ l ≤ current - i → current + l ≤ len data →
      matches data i current l → l ≤ length.
Proof.
  destruct (longestMatch_Returns data current windowSize)
    as (length & distance & Hrun & Hmax & Hcase).
  pose proof (window_start_nonneg current windowSize) as H0.
  exists length, distance. split; [done|]. split_and!.
  - destruct Hcase as [[-> _]|[? _]]; lia.
  - intros Hzero. destruct Hcase as [[_ ?]|[? _]]; [done|lia].
  - intros Hpos. destruct Hcase as [[? _]|(_ & i0 & Hi0 & -> & Hm & _)]; [lia|].
    replace (current - (current - i0)) with i0 by lia.
    destruct (match_at_Returns data i0 current) as (l0 & Hl0 & _ & Hmatch & Hend); [lia|].
    assert (l0 = length) as -> by congruence.
    destruct Hend as [?|[? ?]]; [lia|]. split_and!; [lia..|done].
  - intros i l Hi Hl Hend Hm.
    destruct (match_at_Returns data i current) as (li & Hli & _); [lia|].
    pose proof (Hmax i li Hi Hli) as Hle.
    unfold match_at in Hli. apply match_loop_stops in Hli as [Hli0 Hstop]; [|lia|lia].
    destruct (Z_le_gt_dec l li) as [|Hgt]; [lia|].
    exfalso. apply Hstop. split_and!; [lia..|].
    destruct (Hm li) as (b & Ha & Hb); [lia|]. by rewrite Ha, Hb.
Qed.

Lemma LZ77Compress_loop_span (fuel : nat) (input : list byte) (windowSize i : Z)
    (result tokens : list LZ77Token) :
  0 ≤ i ≤ len input →
  LZ77Compress_loop fuel input windowSize i result = Returns tokens →
  sumZ (token_span <$> result) = i → len result ≤ i →
  (sumZ (token_span <$> tokens) = len input ∨
   sumZ (token_span <$> tokens) = len input + 1) ∧
  len tokens ≤ len input.
Proof.
  revert i result. induction fuel as [|fuel IH]; intros i result Hi; [done|].
  cbn [LZ77Compress_loop].
  destruct (Z.ltb_spec i (len input)) as [Hlt|Hge].
  - destruct (longestMatch_token input i windowSize)
      as (length & distance & -> & Hl & _ & _ & _ & Hend); [lia|].
    rewrite bind_Returns.
    assert (∃ next, (if i + length <? len input then index input (i + length)
                     else mret x00) = Returns next) as [next ->].
    { destruct (Z.ltb_spec (i + length) (len input)); [|by eexists].
      destruct (index_Returns input (i + length)) as (next & -> & _); [lia|]. by eexists. }
    rewrite bind_Returns.
    set (result' := result ++ [_]).
    intros Hrun Hsum Hcount.
    assert (sumZ (token_span <$> result') = i + (length + 1)) as Hsum'.
    { unfold result'. rewrite fmap_app, sumZ_app, Hsum. unfold token_span. simpl. lia. }
    assert (len result' ≤ i + 1) as Hcount'.
    { unfold result', len in *. rewrite length_app. simpl. lia. }
    destruct (Z.leb_spec (len input) (i + (length + 1))).
    + injection Hrun as <-. split; lia.
    + eapply (IH (i + (length + 1)) result'); [lia|done|done|lia].
  - intros [= <-] Hsum Hcount. split; lia.
Qed.

(** X16: the tokens of [LZ77Compress] cover the input: a token stands for
    its match and one more byte, these spans add up to the length of the
    input (or one more, when the last match ran to the end), there are no
    more tokens than bytes, and none exactly for the empty input. *)
Theorem LZ77Compress_token_spans (input : list byte) (windowSize : Z) :
  ∃ tokens,
    LZ77Compress input windowSize = Returns tokens ∧
    (sumZ (token_span <$> tokens) = len input ∨
     sumZ (token_span <$> tokens) = len input + 1) ∧
    len tokens ≤ len input ∧
    (tokens = [] ↔ input = []).
Proof.
  destruct (LZ77Compress_Returns input windowSize) as (tokens & Hrun & _ & _).
  exists tokens. split; [done|].
  assert (0 ≤ 0 ≤ len input) as H0 by (pose proof (len_nonneg input); lia).
  destruct (LZ77Compress_loop_span _ _ _ 0 [] tokens H0 Hrun)
    as [Hsum Hcount]; [done|done|].
  split_and!; [done..|].
  split; intros ->.
  - unfold len in *. simpl in Hsum. destruct input; [done|simpl in *; lia].
  - unfold len in *. simpl in Hcount. destruct tokens; [done|simpl in *; lia].
Qed.

Lemma longestMatch_empty_window (data : list byte) (current windowSize : Z) :
  current ≤ window_start current windowSize →
  longestMatch data current windowSize = Returns (0, 0).
Proof.
  intros Hw. unfold longestMatch, candidates. by rewrite seqZ_nil by lia.
Qed.

Lemma LZ77Compress_loop_literals (fuel : nat) (input : list byte) (windowSize i : Z) :
  windowSize ≤ 0 → len input - windowSize ≤ MaxInt →
  0 ≤ i ≤ len input → len input - i < Z.of_nat fuel → (0 < fuel)%nat →
  LZ77Compress_loop fuel input windowSize i (literal <$> take (Z.to_nat i) input)
  = Returns (literal <$> input).
Proof.
  intros Hw Hmax. revert i. induction fuel as [|fuel IH]; intros i Hi Hfuel Hpos; [lia|].
  cbn [LZ77Compress_loop].
  destruct (Z.ltb_spec i (len input)) as [Hlt|Hge].
  - rewrite longestMatch_empty_window.
    2:{ unfold window_start, int_sub. rewrite max_Zmax.
        rewrite wrap64_small by (unfold MinInt, MaxInt in *; lia). lia. }
    rewrite bind_Returns. rewrite Z.add_0_r.
    destruct (Z.ltb_spec i (len input)); [|lia].
    destruct (index_Returns input i) as (b & -> & Hb); [lia|].
    rewrite bind_Returns.
    assert ((literal <$> take (Z.to_nat i) input) ++ [literal b]
            = literal <$> take (Z.to_nat (i + (0 + 1))) input) as Hnext.
    { replace (Z.to_nat (i + (0 + 1))) with (S (Z.to_nat i)) by lia.
      by rewrite (take_S_r _ _ b), fmap_app. }
    fold (literal b). rewrite Hnext.
    destruct (Z.leb_spec (len input) (i + (0 + 1))).
    + simpl. do 2 f_equal. apply take_ge. unfold len in *. lia.
    + apply IH; lia.
  - simpl. do 2 f_equal. apply take_ge. unfold len in *. lia.
Qed.

(** X17: with a window size of zero or less (no wrap-around in
    [current - windowSize]) the window is empty and [LZ77Compress] does not
    fail: it returns one literal token, with distance 0 and length 0, per
    byte of the input. *)
Theorem LZ77Compress_nonpositive_window (input : list byte) (windowSize : Z) :
  windowSize ≤ 0 → len input - windowSize ≤ MaxInt →
  LZ77Compress input windowSize = Returns (literal <$> input).
Proof.
  intros Hw Hmax. unfold LZ77Compress.
  apply (LZ77Compress_loop_literals _ _ _ 0 Hw Hmax); [|unfold len; lia|lia].
  pose proof (len_nonneg input). lia.
Qed.

Lemma LZ77Compress_nonpositive_window_witness :
  LZ77Compress [x61; x61; x62] 0 = Returns (literal <$> [x61; x61; x62]).
Proof. apply LZ77Compress_nonpositive_window; by vm_compute. Defined.

(* --------------------------------------------------------------------- *)
(** * The priority queue keeps heap order                                 *)
(* --------------------------------------------------------------------- *)

Lemma parent_spec j :
  0 < j → 0 ≤ parent j < j ∧ (j = 2 * parent j + 1 ∨ j = 2 * parent j + 2).
Proof.
  intros Hj. unfold parent. rewrite Z.quot_div_nonneg by lia.
  pose proof (Z.div_mod (j - 1) 2 ltac:(lia)).
  pose proof (Z.mod_pos_bound (j - 1) 2 ltac:(lia)). lia.
Qed.

Lemma parent_child i j : 0 ≤ i → j = 2 * i + 1 ∨ j = 2 * i + 2 → parent j = i.
Proof. intros Hi Hj. destruct (parent_spec j) as [? ?]; lia. Qed.

Lemma key_lookup (h : PriorityQueue) (j : Z) (t : HuffmanTree) :
  h !! Z.to_nat j = Some t → key h j = Freq t.
Proof. unfold key. by intros ->. Qed.

Lemma Less_key (pq : PriorityQueue) (i j : Z) :
  0 ≤ i < len pq → 0 ≤ j < len pq →
  Less pq i j = Returns (key pq i <? key pq j).
Proof.
  intros (a & Ha & Hai)%index_Returns (b & Hb & Hbj)%index_Returns.
  unfold Less. rewrite Ha, Hb. simpl.
  by rewrite (key_lookup _ _ _ Hai), (key_lookup _ _ _ Hbj).
Qed.

Lemma Swap_key (pq : PriorityQueue) (i j : Z) :
  0 ≤ i < len pq → 0 ≤ j < len pq →
  ∃ pq', Swap pq i j = Returns pq' ∧ pq' ≡ₚ pq ∧
    key pq' i = key pq j ∧ key pq' j = key pq i ∧
    pq' !! Z.to_nat i = pq !! Z.to_nat j ∧ pq' !! Z.to_nat j = pq !! Z.to_nat i ∧
    (∀ k, 0 ≤ k → k ≠ i → k ≠ j → pq' !! Z.to_nat k = pq !! Z.to_nat k).
Proof.
  intros Hi Hj.
  destruct (index_Returns pq i Hi) as (a & Ha & Hai).
  destruct (index_Returns pq j Hj) as (b & Hb & Hbj).
  unfold Swap. rewrite Ha, Hb. simpl. eexists. split; [done|].
  assert (<[Z.to_nat j:=a]> (<[Z.to_nat i:=b]> pq) !! Z.to_nat j = Some a) as Hj'.
  { apply list_lookup_insert_eq. rewrite length_insert. unfold len in *. lia. }
  assert (<[Z.to_nat j:=a]> (<[Z.to_nat i:=b]> pq) !! Z.to_nat i = Some b) as Hi'.
  { destruct (decide (i = j)) as [->|Hne]; [congruence|].
    rewrite list_lookup_insert_ne by lia.
    apply list_lookup_insert_eq. unfold len in *. lia. }
  split_and!.
  - by apply swap_Permutation.
  - by rewrite (key_lookup _ _ _ Hi'), (key_lookup _ _ _ Hbj).
  - by rewrite (key_lookup _ _ _ Hj'), (key_lookup _ _ _ Hai).
  - congruence.
  - congruence.
  - intros k Hk Hki Hkj. by rewrite !list_lookup_insert_ne by lia.
Qed.

Lemma key_ext (h h' : PriorityQueue) (k : Z) :
  h' !! Z.to_nat k = h !! Z.to_nat k → key h' k = key h k.
Proof. unfold key. by intros ->. Qed.

(** [down] restores heap order below the tree it moves, and touches
    nothing from index [n] on. *)
Lemma down_heap (fuel : nat) (h : PriorityQueue) (i n lo : Z) :
  0 ≤ lo ≤ i → n ≤ len h → n - i < Z.of_nat fuel → (0 < fuel)%nat →
  heap_except_down h n lo i →
  ∃ h', down fuel h i n = Returns h' ∧ h' ≡ₚ h ∧ heap_from h' n lo ∧
    (∀ k, n ≤ k → h' !! Z.to_nat k = h !! Z.to_nat k).
Proof.
  revert h i. induction fuel as [|fuel IH]; intros h i Hlo Hn Hfuel Hpos [HA HB]; [lia|].
  simpl. destruct (Z.leb_spec n (2 * i + 1)); simpl.
  { exists h. split_and!; [done..| |done].
    intros j Hj Hp. apply HA; [done..|].
    intros Hpi. destruct (parent_spec j); lia. }
  destruct (Z.ltb_spec (2 * i + 1) 0); [lia|]. simpl.
  set (j1 := 2 * i + 1) in *. set (j2 := j1 + 1).
  assert (∃ j, (if j2 <? n then Less h j2 j1 else mret false)
               = Returns (if decide (j = j2) then true else false) ∧
               (j = j1 ∨ j = j2) ∧ j < n ∧
               (∀ j', (j' = j1 ∨ j' = j2) → j' < n → key h j ≤ key h j'))
    as (j & -> & Hjc & Hjn & Hjmin).
  { destruct (Z.ltb_spec j2 n).
    - rewrite Less_key by (unfold j1, j2 in *; lia).
      destruct (Z.ltb_spec (key h j2) (key h j1)).
      + exists j2. rewrite decide_True by done. split_and!; [done|by right|done|].
        intros j' [-> | ->]; lia.
      + exists j1. rewrite decide_False by (unfold j2; lia).
        split_and!; [done|by left|unfold j1, j2 in *; lia|].
        intros j' [-> | ->]; lia.
    - exists j1. rewrite decide_False by (unfold j2; lia).
      split_and!; [done|by left|done|]. intros j' [-> | ->]; lia. }
  rewrite bind_Returns.
  replace (if (if decide (j = j2) then true else false) then j2 else j1) with j
    by (destruct (decide (j = j2)); [done|by destruct Hjc]).
  assert (parent j = i) as Hpj by (apply parent_child; unfold j1, j2 in *; lia).
  assert (i < j) as Hij by (unfold j1, j2 in *; lia).
  rewrite Less_key by lia. rewrite bind_Returns.
  destruct (Z.ltb_spec (key h j) (key h i)) as [Hlt|Hge]; simpl.
  - destruct (Swap_key h i j) as (h' & -> & Hperm & Hki & Hkj & _ & _ & Hko); [lia|lia|].
    rewrite bind_Returns.
    destruct (IH h' j) as (h'' & -> & Hperm' & Hheap & Hrest).
    + lia.
    + by rewrite (len_Permutation _ _ Hperm).
    + lia.
    + lia.
    + split.
      * intros j' Hj' Hp Hpne.
        destruct (parent_spec j' ltac:(lia)) as [Hpr Hch].
        destruct (decide (parent j' = i)) as [Hpi|Hpi].
        -- rewrite Hpi, Hki.
           destruct (decide (j' = j)) as [->|Hjj]; [rewrite Hkj; lia|].
           rewrite (key_ext h h' j') by (apply Hko; lia).
           apply Hjmin; unfold j1, j2; lia.
        -- rewrite (key_ext h h' (parent j')) by (apply Hko; lia).
           assert (j' ≠ j) by congruence.
           destruct (decide (j' = i)) as [->|Hji].
           ++ rewrite Hki. apply HB; [lia|done|lia|lia].
           ++ rewrite (key_ext h h' j') by (apply Hko; lia). by apply HA.
      * intros j' Hj' Hp Hjpos Hlop.
        destruct (parent_spec j' ltac:(lia)) as [Hpr Hch].
        rewrite Hpj, Hki. rewrite (key_ext h h' j') by (apply Hko; lia).
        rewrite <- Hp. apply HA; [done|lia|lia].
    + exists h''. split_and!; [done|by rewrite Hperm'|done|].
      intros k Hk. rewrite Hrest by done. apply Hko; lia.
  - exists h. split_and!; [done..| |done].
    intros j' Hj' Hp. destruct (decide (parent j' = i)) as [Hpi|Hpi]; [|by apply HA].
    destruct (parent_spec j' ltac:(lia)) as [Hpr Hch].
    rewrite Hpi. etrans; [exact Hge|]. apply Hjmin; unfold j1, j2; lia.
Qed.

(** [up] restores heap order above the tree it moves. *)
Lemma up_heap (fuel : nat) (h : PriorityQueue) (j : Z) :
  0 ≤ j < len h → j < Z.of_nat fuel →
  heap_except_up h (len h) j →
  ∃ h', up fuel h j = Returns h' ∧ h' ≡ₚ h ∧ heap_ordered h' (len h').
Proof.
  revert h j. induction fuel as [|fuel IH]; intros h j Hj Hfuel [HA HB]; [lia|].
  simpl. fold (parent j).
  destruct (Z.eqb_spec (parent j) j) as [Heq|Hne].
  { exists h. split_and!; [done..|]. intros j' Hj' _. apply HA; [done|].
    intros ->. destruct (parent_spec j); lia. }
  assert (0 < j) as Hjpos.
  { destruct (decide (j = 0)) as [->|]; [done|lia]. }
  destruct (parent_spec j Hjpos) as [Hpr Hch].
  rewrite Less_key by lia. rewrite bind_Returns.
  destruct (Z.ltb_spec (key h j) (key h (parent j))) as [Hlt|Hge]; simpl.
  - set (i := parent j) in *.
    destruct (Swap_key h i j) as (h' & -> & Hperm & Hki & Hkj & _ & _ & Hko); [lia|lia|].
    rewrite bind_Returns.
    pose proof (len_Permutation _ _ Hperm) as Hlen.
    destruct (IH h' i) as (h'' & -> & Hperm' & Hheap).
    + lia.
    + lia.
    + rewrite Hlen. split.
      * intros j' Hj' Hji.
        destruct (parent_spec j' ltac:(lia)) as [Hpr' Hch'].
        destruct (decide (j' = j)) as [->|Hjj].
        { fold i. rewrite Hki, Hkj. lia. }
        rewrite (key_ext h h' j') by (apply Hko; lia).
        destruct (decide (parent j' = i)) as [Hpi|Hpi].
        { rewrite Hpi, Hki. etrans; [apply Z.lt_le_incl, Hlt|].
          rewrite <- Hpi. by apply HA. }
        destruct (decide (parent j' = j)) as [Hpj|Hpj].
        { rewrite Hpj, Hkj. by apply HB. }
        rewrite (key_ext h h' (parent j')) by (apply Hko; lia). by apply HA.
      * intros j' Hj' Hp Hipos.
        destruct (parent_spec i Hipos) as [Hpri Hchi].
        destruct (parent_spec j' ltac:(lia)) as [Hpr' Hch'].
        rewrite (key_ext h h' (parent i)) by (apply Hko; lia).
        assert (key h (parent i) ≤ key h i) as Hpi by (apply HA; lia).
        destruct (decide (j' = j)) as [->|Hjj]; [rewrite Hkj; lia|].
        rewrite (key_ext h h' j') by (apply Hko; lia).
        etrans; [exact Hpi|]. rewrite <- Hp. apply HA; [done|done].
    + exists h''. split_and!; [done|by rewrite Hperm'|done].
  - exists h. split_and!; [done..|]. intros j' Hj' _.
    destruct (decide (j' = j)) as [->|]; [done|by apply HA].
Qed.

Lemma heapify_heap (k : nat) (h : PriorityQueue) :
  heap_from h (len h) (Z.of_nat k) →
  ∃ h', heapify k h (len h) = Returns h' ∧ h' ≡ₚ h ∧ heap_ordered h' (len h').
Proof.
  revert h. induction k as [|k IH]; intros h Hheap.
  { exists h. by split_and!. }
  cbn [heapify].
  destruct (down_heap (S (length h)) h (Z.of_nat k) (len h) (Z.of_nat k))
    as (h' & -> & Hperm & Hheap' & _); [lia|lia|unfold len; lia|lia| |].
  { split.
    - intros j Hj Hp Hne. apply Hheap; [done|lia].
    - intros j Hj Hp Hpos Hlo. destruct (parent_spec (Z.of_nat k)); lia. }
  rewrite bind_Returns. pose proof (len_Permutation _ _ Hperm) as Hlen.
  rewrite <- Hlen. destruct (IH h') as (h'' & -> & Hperm' & Hheap'').
  { by rewrite Hlen. }
  exists h''. split_and!; [done|by rewrite Hperm'|done].
Qed.

Lemma heap_Init_heap (h : PriorityQueue) :
  ∃ h', heap_Init h = Returns h' ∧ h' ≡ₚ h ∧ heap_ordered h' (len h').
Proof.
  unfold heap_Init. apply heapify_heap.
  intros j Hj Hp. destruct (parent_spec j ltac:(lia)) as [Hpr Hch].
  pose proof (len_nonneg h).
  rewrite Z2Nat.id in Hp by (apply Z.quot_pos; lia).
  rewrite Z.quot_div_nonneg in Hp by lia.
  pose proof (Z.div_mod (len h) 2 ltac:(lia)).
  pose proof (Z.mod_pos_bound (len h) 2 ltac:(lia)). lia.
Qed.

Lemma heap_Push_heap (h : PriorityQueue) (x : HuffmanTree) :
  heap_ordered h (len h) →
  ∃ h', heap_Push h x = Returns h' ∧ h' ≡ₚ x :: h ∧ heap_ordered h' (len h').
Proof.
  intros Hheap. unfold heap_Push, Push.
  assert (len (h ++ [x]) = len h + 1) as Hlen
    by (unfold len; rewrite length_app; simpl; lia).
  pose proof (len_nonneg h).
  destruct (up_heap (S (length (h ++ [x]))) (h ++ [x]) (len (h ++ [x]) - 1))
    as (h' & Hup & Hperm & Hheap'); [lia|unfold len; lia| |].
  { rewrite Hlen. replace (len h + 1 - 1) with (len h) by lia. split.
    - intros j Hj Hne. destruct (parent_spec j ltac:(lia)) as [Hpr Hch].
      rewrite (key_ext h (h ++ [x]) j), (key_ext h (h ++ [x]) (parent j))
        by (apply lookup_app_l; unfold len in *; lia).
      apply Hheap; lia.
    - intros j Hj Hp. destruct (parent_spec j ltac:(lia)). lia. }
  exists h'. split_and!; [exact Hup| |done].
  rewrite Hperm. by rewrite Permutation_app_comm.
Qed.

(** In a heap-ordered queue the first tree is a lightest one. *)
Lemma heap_ordered_min (h : PriorityQueue) (n : Z) :
  heap_ordered h n → ∀ k, 0 ≤ k < n → key h 0 ≤ key h k.
Proof.
  intros Hheap k Hk.
  assert (∀ m : nat, ∀ k, 0 ≤ k < n → Z.to_nat k = m → key h 0 ≤ key h k) as Hind;
    [|by eapply Hind].
  clear k Hk. intros m. induction (lt_wf m) as [m _ IH]. intros k Hk <-.
  destruct (decide (k = 0)) as [->|]; [done|].
  destruct (parent_spec k ltac:(lia)) as [Hpr Hch].
  trans (key h (parent k)); [apply (IH (Z.to_nat (parent k))); [lia|lia|done]|].
  apply Hheap; lia.
Qed.

Lemma heap_ordered_lightest (h : PriorityQueue) (x t : HuffmanTree) :
  heap_ordered h (len h) → h !! 0%nat = Some x → t ∈ h → Freq x ≤ Freq t.
Proof.
  intros Hheap Hx [k Hk]%list_elem_of_lookup.
  pose proof (lookup_lt_Some _ _ _ Hk).
  rewrite <- (key_lookup h 0 x Hx), <- (key_lookup h (Z.of_nat k) t)
    by (by rewrite Nat2Z.id).
  apply (heap_ordered_min h (len h) Hheap). unfold len. lia.
Qed.

(** [heap.Pop] on a heap-ordered queue: the tree returned is a lightest
    one, and the rest is heap-ordered. *)
Lemma heap_Pop_heap (h : PriorityQueue) :
  h ≠ [] → heap_ordered h (len h) →
  ∃ x h', heap_Pop h = Returns (x, h') ∧ h !! 0%nat = Some x ∧ x :: h' ≡ₚ h ∧
    heap_ordered h' (len h') ∧ Forall (λ t, Freq x ≤ Freq t) h.
Proof.
  intros Hne Hheap. unfold heap_Pop.
  assert (0 < len h) as Hlen by (unfold len; destruct h; [done|simpl; lia]).
  destruct (Swap_key h 0 (len h - 1))
    as (h1 & -> & Hp1 & Hk0 & Hkn & _ & Hln & Hko); [lia|lia|].
  rewrite bind_Returns.
  pose proof (len_Permutation _ _ Hp1) as Hlen1.
  destruct (down_heap (S (length h1)) h1 0 (len h - 1) 0)
    as (h2 & -> & Hp2 & Hheap2 & Hrest); [lia|lia|unfold len in *; lia|lia| |].
  { split; [|intros; lia].
    intros j Hj _ Hpne. destruct (parent_spec j ltac:(lia)) as [Hpr Hch].
    rewrite (key_ext h h1 j), (key_ext h h1 (parent j)) by (apply Hko; lia).
    apply Hheap; lia. }
  rewrite bind_Returns.
  pose proof (len_Permutation _ _ Hp2) as Hlen2.
  destruct (Pop_Returns h2) as (x & h' & -> & Hh2).
  { intros ->. unfold len in *. simpl in *. lia. }
  assert (len h' = len h - 1) as Hlen'.
  { unfold len in *. rewrite Hh2, length_app in Hlen2. simpl in Hlen2. lia. }
  assert (h !! 0%nat = Some x) as Hx.
  { change 0%nat with (Z.to_nat 0). rewrite <- Hln, <- Hrest by lia.
    rewrite Hh2, lookup_app_r by (unfold len in *; lia).
    replace (Z.to_nat (len h - 1) - length h')%nat with 0%nat by (unfold len in *; lia).
    done. }
  exists x, h'. split_and!; [done|done| | |].
  - rewrite <- Hp1, <- Hp2, Hh2. by rewrite Permutation_app_comm.
  - rewrite Hlen'. intros j Hj Hp. destruct (parent_spec j ltac:(lia)) as [Hpr Hch].
    rewrite (key_ext h2 h' j), (key_ext h2 h' (parent j))
      by (rewrite Hh2; symmetry; apply lookup_app_l; unfold len in *; lia).
    apply Hheap2; lia.
  - apply Forall_forall. intros t Ht. by apply (heap_ordered_lightest h).
Qed.

(* --------------------------------------------------------------------- *)
(** * BuildTree follows Huffman's algorithm                               *)
(* --------------------------------------------------------------------- *)

Lemma merge_step_Permutation q1 q2 q' : q1 ≡ₚ q2 → merge_step q2 q' → merge_step q1 q'.
Proof.
  intros Hp Hstep. destruct Hstep as [a b rest q2 q' Hq Ha Hb Hq'].
  eapply merge_lightest; [|done..]. by rewrite Hp.
Qed.

Lemma merge_steps_to_singleton q1 q2 t :
  q1 ≡ₚ q2 → rtc merge_step q2 [t] → rtc merge_step q1 [t].
Proof.
  intros Hp Hsteps. apply rtc_inv in Hsteps as [->|(q & Hstep & Hsteps)].
  - apply Permutation_singleton_r in Hp as ->. apply rtc_refl.
  - eapply rtc_l; [|exact Hsteps]. by eapply merge_step_Permutation.
Qed.

Lemma BuildTree_loop_merges (fuel : nat) (trees : PriorityQueue) :
  trees ≠ [] → (length trees ≤ fuel)%nat → heap_ordered trees (len trees) →
  ∃ t, BuildTree_loop fuel trees = Returns [t] ∧ rtc merge_step trees [t].
Proof.
  revert trees. induction fuel as [|fuel IH]; intros trees Hne Hfuel Hheap.
  { destruct trees; [done|simpl in *; lia]. }
  cbn [BuildTree_loop]. destruct (Z.ltb_spec 1 (len trees)) as [Hlen|Hlen].
  - destruct (heap_Pop_heap trees Hne Hheap) as (a & t1 & -> & _ & Hp1 & Hheap1 & Ha).
    rewrite bind_Returns.
    assert (length trees = S (length t1)) as Hl1 by (by rewrite <- Hp1).
    assert (t1 ≠ []) as Hne1 by (intros ->; unfold len in *; simpl in *; lia).
    destruct (heap_Pop_heap t1 Hne1 Hheap1) as (b & t2 & -> & _ & Hp2 & Hheap2 & Hb).
    rewrite bind_Returns.
    assert (length t1 = S (length t2)) as Hl2 by (by rewrite <- Hp2).
    destruct (heap_Push_heap t2 (Node (int_add (Freq a) (Freq b)) 0 a b) Hheap2)
      as (t3 & -> & Hp3 & Hheap3).
    rewrite bind_Returns.
    assert (length t3 = S (length t2)) as Hl3 by (by rewrite Hp3).
    destruct (IH t3) as (t & -> & Hsteps); [by intros ->|lia|done|].
    exists t. split; [done|]. eapply rtc_l; [|exact Hsteps].
    apply (merge_lightest a b t2); [|..|done].
    + by rewrite <- Hp1, <- Hp2.
    + rewrite <- Hp1 in Ha. apply Forall_cons in Ha as [_ Ha]. by rewrite Hp2.
    + rewrite <- Hp2 in Hb. by apply Forall_cons in Hb as [_ Hb].
  - destruct trees as [|t [|]]; [done| |unfold len in *; simpl in *; lia].
    exists t. split; [done|apply rtc_refl].
Qed.

Lemma BuildTree_merges (leaves : list HuffmanLeaf) :
  leaves ≠ [] →
  ∃ h t, heap_Init (Leaf <$> leaves) = Returns h ∧ h ≡ₚ Leaf <$> leaves ∧
    BuildTree leaves = Returns t ∧ rtc merge_step h [t].
Proof.
  intros Hne. unfold BuildTree.
  destruct (heap_Init_heap (Leaf <$> leaves)) as (h & -> & Hp & Hheap).
  rewrite bind_Returns.
  assert (h ≠ []) as Hh.
  { intros ->. apply Permutation_length in Hp. rewrite length_fmap in Hp.
    by destruct leaves. }
  destruct (BuildTree_loop_merges (S (length h)) h Hh) as (t & -> & Hsteps); [lia|done|].
  rewrite bind_Returns. by exists h, t.
Qed.

(** X18: [BuildTree] runs Huffman's algorithm.  For a non-empty list of
    leaves it returns a tree that is reached from the leaves by merge
    steps, each of which replaces two trees of least frequency in the
    collection, [a] no heavier than [b], by the node with [a] on the left,
    [b] on the right and the 64-bit sum of their frequencies. *)
Theorem BuildTree_huffman (leaves : list HuffmanLeaf) :
  leaves ≠ [] →
  ∃ t, BuildTree leaves = Returns t ∧ rtc merge_step (Leaf <$> leaves) [t].
Proof.
  intros Hne.
  destruct (BuildTree_merges leaves Hne) as (h & t & _ & Hp & Ht & Hsteps).
  exists t. split; [done|].
  eapply merge_steps_to_singleton; [|exact Hsteps]. by symmetry.
Qed.

Lemma BuildTree_huffman_witness :
  ∃ t, BuildTree abracadabra_leaves = Returns t ∧
       rtc merge_step (Leaf <$> abracadabra_leaves) [t].
Proof. by apply BuildTree_huffman. Defined.

Lemma merge_steps_light_left q q' :
  rtc merge_step q q' → Forall light_left q → Forall light_left q'.
Proof.
  induction 1 as [|q q1 q' Hstep _ IH]; [done|].
  intros Hq. apply IH. destruct Hstep as [a b rest q q1 Hp Ha Hb Hp1].
  rewrite Hp in Hq. apply Forall_cons in Hq as [Hla Hq].
  apply Forall_cons in Hq as [Hlb Hq]. rewrite Hp1.
  apply Forall_cons. split; [|done]. simpl.
  by apply Forall_cons in Ha as [Hab _].
Qed.

(** X19: in the tree that [BuildTree] returns, at every inner node the left
    subtree is no heavier than the right one, the frequency is the 64-bit
    sum of the frequencies of the two subtrees and the value is 0. *)
Theorem BuildTree_light_left (leaves : list HuffmanLeaf) :
  leaves ≠ [] →
  ∃ t, BuildTree leaves = Returns t ∧ light_left t ∧ built t.
Proof.
  intros Hne.
  destruct (BuildTree_merges leaves Hne) as (h & t & _ & Hp & Ht & Hsteps).
  destruct (BuildTree_Returns leaves Hne) as (t' & Ht' & _ & Hbuilt & _).
  assert (t' = t) as -> by congruence.
  exists t. split_and!; [done| |done].
  apply merge_steps_light_left in Hsteps.
  - by apply Forall_cons in Hsteps as [Ht0 _].
  - rewrite Hp. apply Forall_fmap. by apply Forall_true.
Qed.

Lemma BuildTree_light_left_witness :
  ∃ t, BuildTree abracadabra_leaves = Returns t ∧ light_left t ∧ built t.
Proof. by apply BuildTree_light_left. Defined.

(** X20: [heap.Init] only reorders the queue, and it puts a tree of least
    frequency first. *)
Theorem heap_Init_lightest_first (h : PriorityQueue) :
  ∃ h', heap_Init h = Returns h' ∧ h' ≡ₚ h ∧ heap_ordered h' (len h') ∧
    ∀ x t, h' !! 0%nat = Some x → t ∈ h → Freq x ≤ Freq t.
Proof.
  destruct (heap_Init_heap h) as (h' & Hrun & Hp & Hheap).
  exists h'. split_and!; [done..|].
  intros x t Hx Ht. apply (heap_ordered_lightest h'); [done..|]. by rewrite Hp.
Qed.

(** X21: on a heap-ordered queue that is not empty, [heap.Pop] returns the
    first tree, which is one of least frequency, and leaves the other
    trees, heap-ordered. *)
Theorem heap_Pop_lightest (h : PriorityQueue) :
  h ≠ [] → heap_ordered h (len h) →
  ∃ x h', heap_Pop h = Returns (x, h') ∧ h !! 0%nat = Some x ∧ x :: h' ≡ₚ h ∧
    heap_ordered h' (len h') ∧ ∀ t, t ∈ h → Freq x ≤ Freq t.
Proof.
  intros Hne Hheap.
  destruct (heap_Pop_heap h Hne Hheap) as (x & h' & Hrun & Hx & Hp & Hheap' & Hmin).
  exists x, h'. split_and!; [done..|]. by apply Forall_forall.
Qed.

(** X22: [heap.Push] on a heap-ordered queue keeps it heap-ordered, so the
    [heap.Pop] that follows returns a tree of least frequency among the
    pushed tree and the trees of the queue. *)
Theorem heap_Push_then_Pop (h : PriorityQueue) (x : HuffmanTree) :
  heap_ordered h (len h) →
  ∃ h' y h'', heap_Push h x = Returns h' ∧ heap_ordered h' (len h') ∧
    heap_Pop h' = Returns (y, h'') ∧ y :: h'' ≡ₚ x :: h ∧
    heap_ordered h'' (len h'') ∧ ∀ t, t ∈ x :: h → Freq y ≤ Freq t.
Proof.
  intros Hheap.
  destruct (heap_Push_heap h x Hheap) as (h' & Hpush & Hp & Hheap').
  assert (h' ≠ []) as Hne.
  { intros ->. apply Permutation_length in Hp. simpl in Hp. lia. }
  destruct (heap_Pop_heap h' Hne Hheap') as (y & h'' & Hpop & _ & Hp' & Hheap'' & Hmin).
  exists h', y, h''. split_and!; [done..|by rewrite Hp'|done|].
  intros t Ht. rewrite Forall_forall in Hmin. apply Hmin. by rewrite Hp.
Qed.

Lemma heap_ordered_example : heap_ordered heap_1_5_2 (len heap_1_5_2).
Proof.
  intros j Hj _. assert (j = 1 ∨ j = 2) as [-> | ->] by (unfold len in Hj; simpl in Hj; lia);
    by vm_compute.
Qed.

Lemma heap_Pop_lightest_witness :
  ∃ x h', heap_Pop heap_1_5_2 = Returns (x, h') ∧ heap_1_5_2 !! 0%nat = Some x ∧
    x :: h' ≡ₚ heap_1_5_2 ∧
    heap_ordered h' (len h') ∧ ∀ t, t ∈ heap_1_5_2 → Freq x ≤ Freq t.
Proof. apply heap_Pop_lightest; [done | apply heap_ordered_example]. Defined.

Lemma heap_Push_then_Pop_witness :
  ∃ h' y h'', heap_Push heap_1_5_2 (Leaf aaaa_leaf) = Returns h' ∧
    heap_ordered h' (len h') ∧
    heap_Pop h' = Returns (y, h'') ∧ y :: h'' ≡ₚ Leaf aaaa_leaf :: heap_1_5_2 ∧
    heap_ordered h'' (len h'') ∧ ∀ t, t ∈ Leaf aaaa_leaf :: heap_1_5_2 → Freq y ≤ Freq t.
Proof. apply heap_Push_then_Pop, heap_ordered_example. Defined.

(* --------------------------------------------------------------------- *)
(** * Strings of one symbol                                               *)
(* --------------------------------------------------------------------- *)

Lemma applyHuffmanEncoding_empty_codes encoding s :
  (∀ c, c ∈ s → default [] (encoding !! c) = []) →
  applyHuffmanEncoding s encoding = [].
Proof.
  induction s as [|c s IH]; intros Hs; [done|].
  rewrite applyHuffmanEncoding_cons, Hs by left. apply IH.
  intros c' Hc'. apply Hs. by right.
Qed.

(** X23: for a non-empty string that repeats one symbol, the frequency
    table has one leaf, [BuildTree] returns that leaf, its table gives the
    symbol the empty code, the encoding of the string is empty, and every
    run of the decoder on it returns the empty string. *)
Theorem single_symbol_string (s : list rune) (x : rune) (leaves : list HuffmanLeaf) :
  s ≠ [] → Forall (λ c, c = x) s → BuildFrequencyTable s leaves →
  ∃ hl, leaves = [hl] ∧ Value hl = x ∧
    BuildTree leaves = Returns (Leaf hl) ∧
    buildEncoding (Leaf hl) [] !! x = Some [] ∧
    applyHuffmanEncoding s (buildEncoding (Leaf hl) []) = [] ∧
    ∀ decoded,
      applyHuffmanDecoding (applyHuffmanEncoding s (buildEncoding (Leaf hl) []))
        (buildEncoding (Leaf hl) []) decoded →
      decoded = [].
Proof.
  intros Hne Hs Htable.
  destruct (BuildFrequencyTable_symbols s leaves Htable) as [Hnd Hsym].
  rewrite Forall_forall in Hs.
  assert (x ∈ s) as Hx.
  { destruct s as [|c s]; [done|]. rewrite <- (Hs c) by left. left. }
  assert (∃ hl, leaves = [hl] ∧ Value hl = x) as (hl & -> & Hv).
  { destruct leaves as [|hl [|hl' leaves]].
    - apply Hsym in Hx. by apply elem_of_nil in Hx.
    - exists hl. split; [done|]. apply Hs, Hsym. left.
    - exfalso. simpl in Hnd. apply NoDup_cons in Hnd as [Hnotin _].
      apply Hnotin. assert (Value hl = x) as -> by (apply Hs, Hsym; left).
      assert (Value hl' = x) as <- by (apply Hs, Hsym; right; left). left. }
  exists hl. split_and!; [done..|reflexivity| | |].
  - simpl. by rewrite Hv, lookup_insert_eq.
  - apply applyHuffmanEncoding_empty_codes. intros c Hc. rewrite (Hs c Hc).
    simpl. by rewrite Hv, lookup_insert_eq.
  - intros decoded. rewrite applyHuffmanEncoding_empty_codes.
    + by intros (kvs & _ & ->).
    + intros c Hc. rewrite (Hs c Hc). simpl. by rewrite Hv, lookup_insert_eq.
Qed.

Lemma single_symbol_string_witness :
  ∃ hl, [aaaa_leaf] = [hl] ∧ Value hl = 97 ∧
    BuildTree [aaaa_leaf] = Returns (Leaf hl) ∧
    buildEncoding (Leaf hl) [] !! 97 = Some [] ∧
    applyHuffmanEncoding aaaa (buildEncoding (Leaf hl) []) = [] ∧
    ∀ decoded,
      applyHuffmanDecoding (applyHuffmanEncoding aaaa (buildEncoding (Leaf hl) []))
        (buildEncoding (Leaf hl) []) decoded →
      decoded = [].
Proof.
  apply (single_symbol_string aaaa 97 [aaaa_leaf]).
  - done.
  - repeat constructor.
  - exists (map_to_list (frequencies aaaa)).
    split; [apply range_order_map_to_list | by vm_compute].
Defined.
